(** * opendj: the queue, the playback loop and the timing queries

    A shallow embedding of [opendj.go] (package [opendj]).  Every method of
    [*Dj] becomes a function that takes the [Dj] value and returns the new
    one together with the Go results.  A Go [int] or [time.Duration] is a
    [Z]; where the source computes with [time.Duration] the 64-bit
    wrap-around is written out.  A slice is modelled by its contents (a
    [list]); the sharing of backing arrays between a slice and older copies
    of it is not part of the model, since every method re-reads
    [dj.waitingQueue.Items].  The mutex of [queue] makes each method one
    atomic step, which is how the methods are composed here. *)

From Stdlib Require Import ZArith Lia Sorted.
From stdpp Require Import base list strings.

Local Open Scope Z_scope.

(** ** Machine integers and the [time] package *)

Module GoInt.

Definition minInt64 : Z := - 2 ^ 63.
Definition maxInt64 : Z := 2 ^ 63 - 1.

Definition inInt64 (z : Z) : Prop := minInt64 <= z <= maxInt64.

(** Two's complement reduction of an exact result to [int64]. *)
Definition wrap64 (z : Z) : Z := (z + 2 ^ 63) mod 2 ^ 64 - 2 ^ 63.

Definition add64 (a b : Z) : Z := wrap64 (a + b).
Definition sub64 (a b : Z) : Z := wrap64 (a - b).

(** Saturation, as [time.Time.Sub] does it. *)
Definition sat64 (z : Z) : Z :=
  if z <? minInt64 then minInt64
  else if maxInt64 <? z then maxInt64
  else z.

End GoInt.

Module time.

(** [time.Duration] is an [int64] count of nanoseconds. *)
Definition Duration : Type := Z.

(** An instant, as nanoseconds since the zero [time.Time]. *)
Definition Time : Type := Z.

Definition zeroTime : Time := 0.

(** [t.Sub(u)]: the difference, or the largest (smallest) [Duration]
    when the difference does not fit. *)
Definition Sub (t u : Time) : Duration := GoInt.sat64 (t - u).

(** [time.Since(t)] is [time.Now().Sub(t)]; the clock reading [now] is an
    input of the model. *)
Definition Since (now t : Time) : Duration := Sub now t.

End time.

(** ** Errors *)

(** The [error] values the package produces.  [ErrorEmptyQueue] is the
    package-level sentinel; [errors_New s] is the value of a call
    [errors.New(s)] at a call site (distinct from the sentinel even when
    the text is the same); [fmt_Errorf_w p e] is [fmt.Errorf(p + ": %w", e)];
    [exec_Error s] is an error returned by [os/exec] or [os]. *)
Inductive error : Type :=
| ErrorEmptyQueue
| errors_New (s : string)
| fmt_Errorf_w (prefix : string) (err : error)
| exec_Error (s : string).

#[global] Instance error_eq_dec : EqDecision error.
Proof. solve_decision. Defined.

(** [errors.Is(err, ErrorEmptyQueue)]: identity with the sentinel along the
    chain of wrapped errors. *)
Fixpoint errors_Is_ErrorEmptyQueue (err : error) : bool :=
  match err with
  | ErrorEmptyQueue => true
  | fmt_Errorf_w _ e => errors_Is_ErrorEmptyQueue e
  | errors_New _ | exec_Error _ => false
  end.

(** The value every index check returns. *)
Definition errIndexOutOfRange : error := errors_New "index out of range".
Definition errNoSong : error := errors_New "there is no song being played".

(** ** Data model *)

Record Media : Type := mkMedia {
  Title : string;
  URL : string;
  Duration : time.Duration
}.

(** The field [Media] of the source is [EntryMedia] here (the type has the
    name). *)
Record QueueEntry : Type := mkQueueEntry {
  EntryMedia : Media;
  Owner : string;
  Dedication : string
}.

#[global] Instance Media_eq_dec : EqDecision Media.
Proof. solve_decision. Defined.

#[global] Instance QueueEntry_eq_dec : EqDecision QueueEntry.
Proof. solve_decision. Defined.

(** [Media{}] and [QueueEntry{}]. *)
Definition Media_zero : Media := mkMedia "" "" 0.
Definition QueueEntry_zero : QueueEntry := mkQueueEntry Media_zero "" "".

(** A registered callback is known by an identifier; [None] is the nil
    function value. *)
Definition func : Type := nat.

Record handlers : Type := mkHandlers {
  newSongHandler : option func;
  endOfSongHandler : option func;
  errorHander : option func
}.

(** [waitingQueue.Items] is the field [waitingQueue]; the field [handlers]
    is [hs] (the type has the name). *)
Record Dj : Type := mkDj {
  waitingQueue : list QueueEntry;
  currentEntry : QueueEntry;
  hs : handlers;
  songStarted : time.Time
}.

Definition set_Items (dj : Dj) (items : list QueueEntry) : Dj :=
  mkDj items (currentEntry dj) (hs dj) (songStarted dj).

Definition set_currentEntry (dj : Dj) (e : QueueEntry) : Dj :=
  mkDj (waitingQueue dj) e (hs dj) (songStarted dj).

Definition set_songStarted (dj : Dj) (t : time.Time) : Dj :=
  mkDj (waitingQueue dj) (currentEntry dj) (hs dj) t.

Definition set_handlers (dj : Dj) (h : handlers) : Dj :=
  mkDj (waitingQueue dj) (currentEntry dj) h (songStarted dj).

(** [len(s)] as a Go [int]. *)
Definition len {A} (s : list A) : Z := Z.of_nat (length s).

(** ** Slice primitives *)

Module slice.
Section Ops.
Context {A : Type}.

(** [append(s, x)]. *)
Definition append1 (s : list A) (x : A) : list A := s ++ [x].

(** [append(s, t...)]. *)
Definition append (s t : list A) : list A := s ++ t.

(** [s[i:]] and [s[:i]] for [0 <= i <= len(s)]. *)
Definition from (s : list A) (i : Z) : list A := drop (Z.to_nat i) s.
Definition upto (s : list A) (i : Z) : list A := take (Z.to_nat i) s.

(** [copy(dst, src)]: the first [min(len(dst), len(src))] elements of
    [src] overwrite those of [dst]; the result is the new contents of
    [dst].  Overlapping arguments behave as if [src] were read first. *)
Definition copy (dst src : list A) : list A :=
  let n := Nat.min (length dst) (length src) in
  take n src ++ drop n dst.

(** [copy(s[i:], src)] seen from [s]. *)
Definition copy_at (s : list A) (i : Z) (src : list A) : list A :=
  upto s i ++ copy (from s i) src.

(** [s[i] = x] for [0 <= i < len(s)]. *)
Definition set (s : list A) (i : Z) (x : A) : list A :=
  <[Z.to_nat i := x]> s.

(** [s[i]] for [0 <= i < len(s)]. *)
Definition index (d : A) (s : list A) (i : Z) : A :=
  default d (s !! Z.to_nat i).
End Ops.
End slice.

(** ** The queue methods of [*Dj] *)

Definition NewDj (queue : list QueueEntry) : Dj :=
  mkDj queue QueueEntry_zero (mkHandlers None None None) time.zeroTime.

Definition AddNewSongHandler (dj : Dj) (f : func) : Dj :=
  set_handlers dj
    (mkHandlers (Some f) (endOfSongHandler (hs dj)) (errorHander (hs dj))).

Definition AddEndOfSongHandler (dj : Dj) (f : func) : Dj :=
  set_handlers dj
    (mkHandlers (newSongHandler (hs dj)) (Some f) (errorHander (hs dj))).

Definition AddPlaybackErrorHandler (dj : Dj) (f : func) : Dj :=
  set_handlers dj
    (mkHandlers (newSongHandler (hs dj)) (endOfSongHandler (hs dj)) (Some f)).

Definition Queue (dj : Dj) : list QueueEntry := waitingQueue dj.

Definition AddEntry (dj : Dj) (newEntry : QueueEntry) : Dj :=
  set_Items dj (slice.append1 (waitingQueue dj) newEntry).

Definition InsertEntry (dj : Dj) (newEntry : QueueEntry) (index : Z)
  : Dj * option error :=
  if index <? 0 then (dj, Some errIndexOutOfRange)
  else if index >=? len (waitingQueue dj) then
    (set_Items dj (slice.append1 (waitingQueue dj) newEntry), None)
  else
    let items1 := slice.append1 (waitingQueue dj) QueueEntry_zero in
    let items2 := slice.copy_at items1 (index + 1) (slice.from items1 index) in
    let items3 := slice.set items2 index newEntry in
    (set_Items dj items3, None).

Definition RemoveIndex (dj : Dj) (index : Z) : Dj * option error :=
  if (index >=? len (waitingQueue dj)) || (index <? 0) then
    (dj, Some errIndexOutOfRange)
  else
    (set_Items dj
       (slice.append (slice.upto (waitingQueue dj) index)
                     (slice.from (waitingQueue dj) (index + 1))),
     None).

Definition ChangeIndex (dj : Dj) (newEntry : QueueEntry) (index : Z)
  : Dj * option error :=
  if (index <? 0) || (index >=? len (waitingQueue dj)) then
    (dj, Some errIndexOutOfRange)
  else
    (set_Items dj (slice.set (waitingQueue dj) index newEntry), None).

Definition pop (dj : Dj) : Dj * (QueueEntry * option error) :=
  if len (waitingQueue dj) <? 1 then
    (dj, (QueueEntry_zero, Some ErrorEmptyQueue))
  else
    let entry := slice.index QueueEntry_zero (waitingQueue dj) 0 in
    (set_Items dj (slice.from (waitingQueue dj) 1), (entry, None)).

Definition EntryAtIndex (dj : Dj) (index : Z)
  : Dj * (QueueEntry * option error) :=
  if (index >=? len (waitingQueue dj)) || (index <? 0) then
    (dj, (QueueEntry_zero, Some errIndexOutOfRange))
  else
    let entry := slice.index QueueEntry_zero (waitingQueue dj) index in
    (dj, (entry, None)).

(** ** Position and timing queries *)

(** The [range] loop of [UserPosition], from index [i] on. *)
Fixpoint UserPosition_loop (nick : string) (i : Z) (items : list QueueEntry)
  (positions : list Z) : list Z :=
  match items with
  | [] => positions
  | content :: rest =>
    UserPosition_loop nick (i + 1) rest
      (if decide (Owner content = nick) then slice.append1 positions i
       else positions)
  end.

Definition UserPosition (dj : Dj) (nick : string) : list Z :=
  UserPosition_loop nick 0 (waitingQueue dj) [].

(** The [range] loop of [DurationUntilUser]: [dur] is the running total,
    [durations] the result so far. *)
Fixpoint DurationUntilUser_loop (nick : string) (dur : time.Duration)
  (items : list QueueEntry) (durations : list time.Duration)
  : list time.Duration :=
  match items with
  | [] => durations
  | content :: rest =>
    DurationUntilUser_loop nick
      (GoInt.add64 dur (Duration (EntryMedia content))) rest
      (if decide (Owner content = nick) then slice.append1 durations dur
       else durations)
  end.

(** [now] is the reading of the clock taken by [time.Since]. *)
Definition DurationUntilUser (dj : Dj) (now : time.Time) (nick : string)
  : list time.Duration :=
  let dur :=
    GoInt.sub64 (Duration (EntryMedia (currentEntry dj)))
                (time.Since now (songStarted dj)) in
  DurationUntilUser_loop nick dur (waitingQueue dj) [].

Definition CurrentlyPlaying (dj : Dj) (now : time.Time)
  : QueueEntry * time.Duration * option error :=
  let err :=
    if decide (EntryMedia (currentEntry dj) = Media_zero)
    then Some errNoSong else None in
  (currentEntry dj, time.Since now (songStarted dj), err).

(** ** Sequences of queue operations *)

Inductive QueueOp : Type :=
| OpAdd (e : QueueEntry)
| OpInsert (e : QueueEntry) (index : Z)
| OpRemoveAt (index : Z)
| OpReplaceAt (e : QueueEntry) (index : Z).

(** One call on the [Dj], by the method the operation names. *)
Definition apply_op (dj : Dj) (op : QueueOp) : Dj * option error :=
  match op with
  | OpAdd e => (AddEntry dj e, None)
  | OpInsert e i => InsertEntry dj e i
  | OpRemoveAt i => RemoveIndex dj i
  | OpReplaceAt e i => ChangeIndex dj e i
  end.

(** The calls of a sequence, one after the other; errors are dropped. *)
Definition run_ops (dj : Dj) (ops : list QueueOp) : Dj :=
  foldl (fun d op => fst (apply_op d op)) dj ops.

(** The reference list model of the queue: each operation by the words of
    its contract, on a plain list. *)
Module RefModel.

Inductive outcome : Type := Ok | OutOfRange.

Definition Add (l : list QueueEntry) (e : QueueEntry) : list QueueEntry :=
  l ++ [e].

Definition Insert (l : list QueueEntry) (e : QueueEntry) (index : Z)
  : list QueueEntry * outcome :=
  if decide (index < 0) then (l, OutOfRange)
  else if decide (index >= len l) then (Add l e, Ok)
  else (take (Z.to_nat index) l ++ e :: drop (Z.to_nat index) l, Ok).

Definition RemoveAt (l : list QueueEntry) (index : Z)
  : list QueueEntry * outcome :=
  if decide (index < 0 \/ index >= len l) then (l, OutOfRange)
  else (delete (Z.to_nat index) l, Ok).

Definition ReplaceAt (l : list QueueEntry) (e : QueueEntry) (index : Z)
  : list QueueEntry * outcome :=
  if decide (index < 0 \/ index >= len l) then (l, OutOfRange)
  else (take (Z.to_nat index) l ++ e :: drop (S (Z.to_nat index)) l, Ok).

Definition apply (l : list QueueEntry) (op : QueueOp)
  : list QueueEntry * outcome :=
  match op with
  | OpAdd e => (Add l e, Ok)
  | OpInsert e i => Insert l e i
  | OpRemoveAt i => RemoveAt l i
  | OpReplaceAt e i => ReplaceAt l e i
  end.

Definition run (l : list QueueEntry) (ops : list QueueOp) : list QueueEntry :=
  foldl (fun l op => fst (apply l op)) l ops.

(** The change of length the contract of [op] predicts: [Add] and a
    successful [Insert] grow the queue by one, a successful [RemoveAt]
    shrinks it by one, a successful [ReplaceAt] and every failed call leave
    it as it is. *)
Definition delta (op : QueueOp) (o : outcome) : Z :=
  match o, op with
  | OutOfRange, _ => 0
  | Ok, OpAdd _ => 1
  | Ok, OpInsert _ _ => 1
  | Ok, OpRemoveAt _ => -1
  | Ok, OpReplaceAt _ _ => 0
  end.

End RefModel.

(** Whether a call succeeded, from the Go result. *)
Definition outcome_of (err : option error) : RefModel.outcome :=
  match err with
  | None => RefModel.Ok
  | Some _ => RefModel.OutOfRange
  end.

(** The Go result that reports an outcome. *)
Definition error_of (o : RefModel.outcome) : option error :=
  match o with
  | RefModel.Ok => None
  | RefModel.OutOfRange => Some errIndexOutOfRange
  end.

(** ** The playback session *)

(** [strings.TrimSpace]: the string without its leading and trailing white
    space, in the sense of [unicode.IsSpace] on the runes the UTF-8 bytes
    of the string encode: U+0009 to U+000D, U+0020, U+0085, U+00A0, U+1680,
    U+2000 to U+200A, U+2028, U+2029, U+202F, U+205F and U+3000.  A byte
    that starts no such encoding ends the trimming. *)
Definition isSpace (a : Ascii.ascii) : bool :=
  match Ascii.N_of_ascii a with
  | 9 | 10 | 11 | 12 | 13 | 32 => true
  | _ => false
  end%N.

(** The last byte of U+2000 to U+200A, U+2028, U+2029 and U+202F, whose
    encoding starts with E2 80. *)
Definition isSpaceE280 (b : N) : bool :=
  ((128 <=? b) && (b <=? 138) || (b =? 168) || (b =? 169) || (b =? 175))%N.

(** The bytes [a b] or [a b c] encode a white space rune that is not
    ASCII. *)
Definition isSpace2 (a b : N) : bool :=
  ((a =? 194) && ((b =? 133) || (b =? 160)))%N.

Definition isSpace3 (a b c : N) : bool :=
  ((a =? 225) && (b =? 154) && (c =? 128) ||
   (a =? 226) && ((b =? 128) && isSpaceE280 c || (b =? 129) && (c =? 159)) ||
   (a =? 227) && (b =? 128) && (c =? 128))%N.

(** [strings.TrimLeftFunc(s, unicode.IsSpace)]. *)
Fixpoint trimLeft (s : string) : string :=
  match s with
  | EmptyString => EmptyString
  | String a rest =>
    if isSpace a then trimLeft rest
    else
      match rest with
      | String b rest2 =>
        if isSpace2 (Ascii.N_of_ascii a) (Ascii.N_of_ascii b)
        then trimLeft rest2
        else
          match rest2 with
          | String c rest3 =>
            if isSpace3 (Ascii.N_of_ascii a) (Ascii.N_of_ascii b)
                        (Ascii.N_of_ascii c)
            then trimLeft rest3
            else s
          | EmptyString => s
          end
      | EmptyString => s
      end
  end.

(** [strings.TrimRightFunc(s, unicode.IsSpace)] on the reversed string: the
    last byte comes first. *)
Fixpoint trimRightRev (s : string) : string :=
  match s with
  | EmptyString => EmptyString
  | String a rest =>
    if isSpace a then trimRightRev rest
    else
      match rest with
      | String b rest2 =>
        if isSpace2 (Ascii.N_of_ascii b) (Ascii.N_of_ascii a)
        then trimRightRev rest2
        else
          match rest2 with
          | String c rest3 =>
            if isSpace3 (Ascii.N_of_ascii c) (Ascii.N_of_ascii b)
                        (Ascii.N_of_ascii a)
            then trimRightRev rest3
            else s
          | EmptyString => s
          end
      | EmptyString => s
      end
  end.

Definition strings_TrimSpace (s : string) : string :=
  String.rev (trimRightRev (String.rev (trimLeft s))).

(** What lies outside the program during one call of [Play].  The loop of
    the producer is numbered by iteration [n = 0, 1, ...]:
    - [others n]: the queue methods other goroutines complete after the
      [pop] of iteration [n - 1] and before the [pop] of iteration [n];
    - [yt_dlp n args]: the [Output()] of the command [yt-dlp args] run in
      iteration [n] (standard output, error);
    - [ffmpeg n args]: the result of [cmd.Run()] for [ffmpeg args] writing
      to the fifo in iteration [n];
    - [clock n]: [time.Now()] in iteration [n];
    - [mkfifo], [openFile]: the results of [syscall.Mkfifo] and
      [os.OpenFile];
    - [relay]: the result of [cmd.Run()] in the second goroutine;
    - [relayFirst]: whether the second goroutine returns before the
      first one.
    The record has no place for a handler registered while [Play] runs, nor
    for a queue method called after the last [pop]: what is proved of
    handlers is about those registered before [Play] is called, and what is
    proved of the queue [Play] leaves is about the queue at the last
    [pop]. *)
Record World : Type := mkWorld {
  others : nat -> list QueueOp;
  yt_dlp : nat -> list string -> string * option error;
  ffmpeg : nat -> list string -> option error;
  clock : nat -> time.Time;
  mkfifo : option error;
  openFile : option error;
  relay : option error;
  relayFirst : bool
}.

(** What a session does that can be seen from outside, in the order it
    happens. *)
Inductive event : Type :=
| EvPop (entry : QueueEntry)
| EvYtDlp (args : list string) (err : option error)
| EvNewSong (f : func) (entry : QueueEntry)
| EvFfmpeg (args : list string) (err : option error)
| EvEndOfSong (f : func) (entry : QueueEntry) (err : option error)
| EvError (f : func) (err : error).

#[global] Instance event_eq_dec : EqDecision event.
Proof. solve_decision. Defined.

(** The arguments [writeToFIFO] runs ffmpeg with. *)
Definition fifoArgs (args : list string) : list string :=
  slice.append args
    ["-c:a"; "aac"; "-strict"; "-2"; "-ar"; "44100"; "-b:a"; "160k";
     "-ac"; "2"; "-f"; "mpegts"; "pipe:1"]%string.

(** [writeToFIFO(fifo, args...)] in iteration [n]: the event of the run of
    ffmpeg and the returned error. *)
Definition writeToFIFO (w : World) (n : nat) (args : list string)
  : event * option error :=
  let args := fifoArgs args in
  let ev := EvFfmpeg args (ffmpeg w n args) in
  match ffmpeg w n args with
  | Some err => (ev, Some (fmt_Errorf_w "failed to write to pipe" err))
  | None => (ev, None)
  end.

Definition silenceArgs : list string :=
  ["-re"; "-t"; "00:00:15"; "-f"; "lavfi"; "-i"; "anullsrc"]%string.

Definition songArgs (audioURL : string) : list string :=
  ["-reconnect"; "1"; "-i"; audioURL; "-af"; "apad=pad_dur=5"]%string.

(** The arguments of the run of yt-dlp for [entry]. *)
Definition ytArgs (entry : QueueEntry) : list string :=
  ["-f"; "bestaudio"; "-g"; URL (EntryMedia entry)]%string.

(** A call of a handler that may be nil. *)
Definition call {A} (h : option func) (ev : func -> A) : list A :=
  match h with
  | Some f => [ev f]
  | None => []
  end.

(** How one iteration of the [for] loop of the producer ends. *)
Inductive iter_end : Type :=
| Continue (dj : Dj) (emptyStreamCounter : Z)
| Break (dj : Dj)
| Return (dj : Dj) (err : error).

(** The body of the [for] loop of the first goroutine of [Play], in
    iteration [n]. *)
Definition producer_iter (w : World) (n : nat) (dj : Dj)
  (emptyStreamCounter : Z) : list event * iter_end :=
  let dj := run_ops dj (others w n) in
  let '(dj, (entry, err)) := pop dj in
  match err with
  | Some err =>
    let dj := set_currentEntry dj QueueEntry_zero in
    if errors_Is_ErrorEmptyQueue err then
      if emptyStreamCounter >=? 4 then ([], Break dj)
      else
        let '(ev, err) := writeToFIFO w n silenceArgs in
        match err with
        | Some err => ([ev], Return dj err)
        | None => ([ev], Continue dj (emptyStreamCounter + 1))
        end
    else ([], Return dj err)
  | None =>
    let dj := set_currentEntry dj entry in
    let '(output, err) := yt_dlp w n (ytArgs entry) in
    let evs := [EvPop entry; EvYtDlp (ytArgs entry) err] in
    match err with
    | Some err => (evs, Return dj err)
    | None =>
      let audioURL := strings_TrimSpace output in
      let evs := evs ++ call (newSongHandler (hs dj))
                             (fun f => EvNewSong f entry) in
      let dj := set_songStarted dj (clock w n) in
      let '(ev, err) := writeToFIFO w n (songArgs audioURL) in
      let evs := evs ++ [ev] in
      match err with
      | Some err => (evs, Return dj err)
      | None =>
        let evs := evs ++ call (endOfSongHandler (hs dj))
                               (fun f => EvEndOfSong f entry err) in
        (evs, Continue dj emptyStreamCounter)
      end
    end
  end.

(** The [for] loop, from iteration [n] on, for at most [fuel] iterations.
    The trace pairs every event with its iteration.  The result is [None]
    while the loop is still running, [Some (dj, err)] once the goroutine
    has returned [err]. *)
Fixpoint producer_loop (w : World) (fuel n : nat) (dj : Dj)
  (emptyStreamCounter : Z)
  : list (nat * event) * option (Dj * option error) :=
  match fuel with
  | O => ([], None)
  | S fuel =>
    let '(evs, r) := producer_iter w n dj emptyStreamCounter in
    let tr := (fun ev => (n, ev)) <$> evs in
    match r with
    | Continue dj c =>
      let '(tr', res) := producer_loop w fuel (S n) dj c in
      (tr ++ tr', res)
    | Break dj => (tr, Some (dj, None))
    | Return dj err => (tr, Some (dj, Some err))
    end
  end.

(** The first goroutine: open the fifo, then loop. *)
Definition producer (w : World) (fuel : nat) (dj : Dj)
  : list (nat * event) * option (Dj * option error) :=
  match openFile w with
  | Some err => ([], Some (dj, Some err))
  | None => producer_loop w fuel 0%nat dj 0
  end.

(** The second goroutine: relay the fifo to the RTMP server. *)
Definition consumer (w : World) : option error :=
  match relay w with
  | Some err => Some (fmt_Errorf_w "failed to stream from fifo" err)
  | None => None
  end.

(** [eg.Wait()]: the first error a goroutine returned. *)
Definition eg_Wait (w : World) (perr cerr : option error) : option error :=
  if relayFirst w then
    match cerr with Some _ => cerr | None => perr end
  else
    match perr with Some _ => perr | None => cerr end.

(** How a call of [Play] ends. *)
Inductive play_end : Type :=
| Panic (err : error)
| Running
| Done (dj : Dj) (err : option error) (handled : list event).

(** [Play]: the trace of the first goroutine and the end of the call;
    [handled] is the call of the error handler after [eg.Wait()]. *)
Definition Play (w : World) (fuel : nat) (dj : Dj)
  : list (nat * event) * play_end :=
  match mkfifo w with
  | Some err => ([], Panic err)
  | None =>
    let '(tr, res) := producer w fuel dj in
    match res with
    | None => (tr, Running)
    | Some (dj, perr) =>
      let err := eg_Wait w perr (consumer w) in
      match err with
      | Some e =>
        (tr, Done dj err (call (errorHander (hs dj)) (fun f => EvError f e)))
      | None => (tr, Done dj err [])
      end
    end
  end.

(** ** Waiting times, stated on the list *)

(** The exact sum of the durations of [items]. *)
Definition total (items : list QueueEntry) : Z :=
  foldr (fun c acc => Duration (EntryMedia c) + acc) 0 items.

(** [base] plus the durations of the entries strictly before index [i], as
    a [time.Duration]. *)
Definition wait_before (base : Z) (items : list QueueEntry) (i : nat)
  : time.Duration :=
  GoInt.wrap64 (base + total (take i items)).

(** The indices of the entries of [nick], ascending. *)
Definition owned_positions (nick : string) (items : list QueueEntry)
  : list nat :=
  filter (fun i => Owner <$> items !! i = Some nick) (seq 0 (length items)).

(** ** Statements about a session *)

(** Every occurrence of [x] in the trace comes before every occurrence of
    [y]. *)
Definition precedes (tr : list (nat * event)) (x y : nat * event) : Prop :=
  forall p q, tr !! p = Some x -> tr !! q = Some y -> (p < q)%nat.

(** Nobody else leaves anything in an empty queue. *)
Definition stays_empty (w : World) : Prop :=
  forall n dj, Queue dj = [] -> Queue (run_ops dj (others w n)) = [].

(** Every silence segment is written without error. *)
Definition silence_succeeds (w : World) : Prop :=
  forall n, ffmpeg w n (fifoArgs silenceArgs) = None.

(** The run of ffmpeg that writes one silence segment, in iteration [n]. *)
Definition silence_at (err : option error) (n : nat) : nat * event :=
  (n, EvFfmpeg (fifoArgs silenceArgs) err).

(** The arguments of the run of ffmpeg that streams [entry] in iteration
    [n]: it reads the locator yt-dlp printed for the URL of [entry]. *)
Definition audioArgs (w : World) (n : nat) (entry : QueueEntry)
  : list string :=
  fifoArgs (songArgs (strings_TrimSpace (fst (yt_dlp w n (ytArgs entry))))).

(** What an iteration does with [entry] when nothing fails: pop, resolve,
    new-song callback, stream, end-of-song callback. *)
Definition song_events (w : World) (h : handlers) (n : nat)
  (entry : QueueEntry) : list event :=
  [EvPop entry; EvYtDlp (ytArgs entry) None] ++
  call (newSongHandler h) (fun f => EvNewSong f entry) ++
  [EvFfmpeg (audioArgs w n entry) None] ++
  call (endOfSongHandler h) (fun f => EvEndOfSong f entry None).

(** The event [ev] of iteration [n] is about [entry]. *)
Definition of_entry (w : World) (h : handlers) (n : nat)
  (entry : QueueEntry) (ev : event) : Prop :=
  match ev with
  | EvPop e => e = entry
  | EvYtDlp args _ => args = ytArgs entry
  | EvNewSong f e => newSongHandler h = Some f /\ e = entry
  | EvFfmpeg args _ => args = audioArgs w n entry
  | EvEndOfSong f e err =>
    endOfSongHandler h = Some f /\ e = entry /\ err = None
  | EvError _ _ => False
  end.

(** What a failed stream means for the iteration that ends with [r]: a run
    of ffmpeg that returned [err] makes the goroutine return [err]
    (wrapped), and an end-of-song callback is only ever given nil. *)
Definition failure_is_returned (r : iter_end) (ev : event) : Prop :=
  match ev with
  | EvEndOfSong _ _ err => err = None
  | EvFfmpeg _ (Some err) =>
    exists dj, r = Return dj (fmt_Errorf_w "failed to write to pipe" err)
  | _ => True
  end.

(** ** Sample data *)

Module Sample.

Definition X : string := "X".
Definition Y : string := "Y".

Definition A : QueueEntry := mkQueueEntry (mkMedia "a" "http://a" 10) X "".
Definition B : QueueEntry := mkQueueEntry (mkMedia "b" "http://b" 5) Y "".
Definition C : QueueEntry := mkQueueEntry (mkMedia "c" "http://c" 7) X "".

Definition djABC : Dj := NewDj [A; B; C].

(** The queue [A; B; C] while an entry of duration 2 is starting. *)
Definition djWait : Dj :=
  mkDj [A; B; C] (mkQueueEntry (mkMedia "s" "http://s" 2) Y "")
       (mkHandlers None None None) 100.

(** An entry with an owner whose [Media] is the zero value. *)
Definition blank : QueueEntry := mkQueueEntry Media_zero X "for Y".

Definition ops : list QueueOp :=
  [OpAdd A; OpInsert B 0; OpInsert C 1; OpInsert A (-1); OpRemoveAt 0;
   OpReplaceAt B 1; OpRemoveAt 7].

Definition nl : string := String (Ascii.ascii_of_nat 10) "".

Definition exit1 : error := exec_Error "exit status 1".

(** Every command succeeds, nobody else touches the queue; yt-dlp prints
    the URL it was given under another host, and a newline. *)
Definition fine : World :=
  mkWorld (fun _ => [])
          (fun _ args =>
             (String.app "cdn:" (String.app (List.last args "") nl), None))
          (fun _ _ => None)
          (fun n => 1000 * Z.of_nat n)
          None None None false.

(** As [fine], but the run of ffmpeg in iteration 0 exits with status 1. *)
Definition encodeFails : World :=
  mkWorld (others fine) (yt_dlp fine)
          (fun n _ => match n with O => Some exit1 | _ => None end)
          (clock fine) None None None false.

(** As [fine], but another goroutine adds [A] between the second and the
    third pop. *)
Definition refill : World :=
  mkWorld (fun n => match n with 2%nat => [OpAdd A] | _ => [] end)
          (yt_dlp fine) (ffmpeg fine) (clock fine) None None None false.

(** As [fine], but the second run of ffmpeg exits with status 1. *)
Definition silenceFails : World :=
  mkWorld (others fine) (yt_dlp fine)
          (fun n _ => match n with 1%nat => Some exit1 | _ => None end)
          (clock fine) None None None false.

(** A Dj with the three handlers registered as 1, 2 and 3. *)
Definition withHandlers (queue : list QueueEntry) : Dj :=
  AddPlaybackErrorHandler
    (AddEndOfSongHandler (AddNewSongHandler (NewDj queue) 1%nat) 2%nat) 3%nat.

End Sample.

(** ** The dedication of a queued entry *)

(** [ChangeDedication] of the revision of the package that has it (there
    the field [Owner] is called [User], and [UserPosition] and
    [DurationUntilUser] are the loops above): the assignment
    [Items[index].Dedication = dedication] under the bounds check of
    [ChangeIndex]. *)
Definition ChangeDedication (dj : Dj) (index : Z) (dedication : string)
  : Dj * option error :=
  if (index <? 0) || (index >=? len (waitingQueue dj)) then
    (dj, Some errIndexOutOfRange)
  else
    let old := slice.index QueueEntry_zero (waitingQueue dj) index in
    (set_Items dj
       (slice.set (waitingQueue dj) index
          (mkQueueEntry (EntryMedia old) (Owner old) dedication)),
     None).

(** ** Further statements about the queue and a session *)

(** [n] calls of [pop], up to the first that fails: the entries returned
    and the Dj left. *)
Fixpoint pop_n (n : nat) (dj : Dj) : list QueueEntry * Dj :=
  match n with
  | O => ([], dj)
  | S n =>
    let '(dj', (entry, err)) := pop dj in
    match err with
    | Some _ => ([], dj')
    | None => let '(es, dj'') := pop_n n dj' in (entry :: es, dj'')
    end
  end.

(** The entries a trace pops, in order. *)
Definition popped (tr : list (nat * event)) : list QueueEntry :=
  omap (fun x => match snd x with EvPop e => Some e | _ => None end) tr.

(** The silence segments a trace writes. *)
Definition silences (tr : list (nat * event)) : nat :=
  length (filter (fun x => snd x = EvFfmpeg (fifoArgs silenceArgs) None) tr).

(** Nobody else calls a queue method during the session. *)
Definition undisturbed (w : World) : Prop := forall n, others w n = [].

(** Every run of yt-dlp, and every run of ffmpeg, succeeds. *)
Definition resolves (w : World) : Prop :=
  forall n args, snd (yt_dlp w n args) = None.

Definition streams (w : World) : Prop := forall n args, ffmpeg w n args = None.

(** The place of an event in the body of the loop. *)
Definition stage (ev : event) : nat :=
  match ev with
  | EvPop _ => 0
  | EvYtDlp _ _ => 1
  | EvNewSong _ _ => 2
  | EvFfmpeg _ _ => 3
  | EvEndOfSong _ _ _ => 4
  | EvError _ _ => 5
  end.

(** The trace of a session that plays [queue] from iteration [n] on with
    nothing failing. *)
Fixpoint song_trace (w : World) (h : handlers) (n : nat)
  (queue : list QueueEntry) : list (nat * event) :=
  match queue with
  | [] => []
  | entry :: rest =>
    ((fun ev => (n, ev)) <$> song_events w h n entry) ++
    song_trace w h (S n) rest
  end.

Module Demo.

Definition D : QueueEntry :=
  mkQueueEntry (mkMedia "d" "http://d" 3) Sample.Y "hello".

Definition dj4 : Dj :=
  mkDj [Sample.A; Sample.B; Sample.C; D] Sample.B
       (mkHandlers (Some 1%nat) None (Some 3%nat)) 40.

(** As [Sample.fine], but yt-dlp fails in iteration 1. *)
Definition resolveFails : World :=
  mkWorld (others Sample.fine)
          (fun n args =>
             match n with
             | 1%nat => ("", Some (exec_Error "exit status 1"))
             | _ => yt_dlp Sample.fine n args
             end)
          (ffmpeg Sample.fine) (clock Sample.fine) None None None false.

End Demo.

(** * Properties *)

(** ** Machine arithmetic *)

Lemma wrap64_id (z : Z) : GoInt.inInt64 z -> GoInt.wrap64 z = z.
Proof.
  unfold GoInt.inInt64, GoInt.minInt64, GoInt.maxInt64, GoInt.wrap64.
  intros H. rewrite Z.mod_small by lia. lia.
Qed.

Lemma wrap64_add_l (a b : Z) :
  GoInt.wrap64 (GoInt.wrap64 a + b) = GoInt.wrap64 (a + b).
Proof.
  unfold GoInt.wrap64.
  replace ((a + 2 ^ 63) mod 2 ^ 64 - 2 ^ 63 + b + 2 ^ 63)
    with ((a + 2 ^ 63) mod 2 ^ 64 + b) by lia.
  rewrite Zplus_mod_idemp_l. f_equal. f_equal. lia.
Qed.

(** ** Slices *)

Lemma len_nonneg {A} (s : list A) : 0 <= len s.
Proof. unfold len. lia. Qed.

Lemma len_app1 {A} (s : list A) (x : A) : len (slice.append1 s x) = len s + 1.
Proof. unfold len, slice.append1. rewrite length_app. simpl. lia. Qed.

(** Growing by one slot, moving the tail one place up and storing at [i]
    is the insertion at [i]. *)
Lemma insert_by_copy {A} (l : list A) (z e : A) (i : nat) :
  (i < length l)%nat ->
  <[i := e]> (take (S i) (l ++ [z]) ++
              slice.copy (drop (S i) (l ++ [z])) (drop i (l ++ [z])))
  = take i l ++ e :: drop i l.
Proof.
  intros Hi. unfold slice.copy.
  rewrite !length_drop, length_app. simpl length.
  replace (Nat.min (length l + 1 - S i) (length l + 1 - i))
    with (length l - i)%nat by lia.
  rewrite (drop_app_le l [z] i) by lia.
  rewrite (take_app_le l [z] (S i)) by lia.
  rewrite take_app_le by (rewrite length_drop; lia).
  rewrite (take_ge (drop i l)) by (rewrite length_drop; lia).
  rewrite (drop_ge (drop (S i) (l ++ [z]))) by
    (rewrite length_drop, length_app; simpl; lia).
  rewrite app_nil_r.
  destruct (lookup_lt_is_Some_2 l i Hi) as [x Hx].
  rewrite (take_S_r l i x Hx), <- app_assoc. simpl.
  rewrite insert_app_r_alt by (rewrite length_take; lia).
  rewrite length_take. replace (i - i `min` length l)%nat with 0%nat by lia.
  reflexivity.
Qed.

(** ** The queue methods on their own *)

Lemma InsertEntry_negative (dj : Dj) (e : QueueEntry) (index : Z) :
  index < 0 -> InsertEntry dj e index = (dj, Some errIndexOutOfRange).
Proof.
  intros H. unfold InsertEntry.
  destruct (Z.ltb_spec index 0); [reflexivity | lia].
Qed.

Lemma InsertEntry_high (dj : Dj) (e : QueueEntry) (index : Z) :
  index >= len (Queue dj) -> InsertEntry dj e index = (AddEntry dj e, None).
Proof.
  intros H. pose proof (len_nonneg (Queue dj)). unfold InsertEntry, Queue in *.
  destruct (Z.ltb_spec index 0); [lia |].
  destruct (Z.geb_spec index (len (waitingQueue dj))); [reflexivity | lia].
Qed.

Lemma InsertEntry_inside (dj : Dj) (e : QueueEntry) (index : Z) :
  0 <= index < len (Queue dj) ->
  InsertEntry dj e index =
  (set_Items dj (take (Z.to_nat index) (Queue dj) ++
                 e :: drop (Z.to_nat index) (Queue dj)), None).
Proof.
  intros H. unfold InsertEntry, Queue in *.
  destruct (Z.ltb_spec index 0); [lia |].
  destruct (Z.geb_spec index (len (waitingQueue dj))); [lia |].
  unfold slice.copy_at, slice.set, slice.from, slice.upto, slice.append1.
  replace (Z.to_nat (index + 1)) with (S (Z.to_nat index)) by lia.
  rewrite insert_by_copy by (unfold len in *; lia).
  reflexivity.
Qed.

Lemma out_of_range_test (index n : Z) :
  (index >=? n) || (index <? 0) = (index <? 0) || (index >=? n).
Proof. apply orb_comm. Qed.

Lemma range_test_true (index n : Z) :
  index < 0 \/ index >= n -> (index <? 0) || (index >=? n) = true.
Proof.
  intros H. destruct (Z.ltb_spec index 0), (Z.geb_spec index n);
    simpl; try reflexivity; lia.
Qed.

Lemma range_test_false (index n : Z) :
  0 <= index < n -> (index <? 0) || (index >=? n) = false.
Proof.
  intros H. destruct (Z.ltb_spec index 0), (Z.geb_spec index n);
    simpl; try reflexivity; lia.
Qed.

Lemma RemoveIndex_outside (dj : Dj) (index : Z) :
  index < 0 \/ index >= len (Queue dj) ->
  RemoveIndex dj index = (dj, Some errIndexOutOfRange).
Proof.
  intros H. unfold RemoveIndex.
  rewrite out_of_range_test, range_test_true by exact H. reflexivity.
Qed.

Lemma RemoveIndex_inside (dj : Dj) (index : Z) :
  0 <= index < len (Queue dj) ->
  RemoveIndex dj index =
  (set_Items dj (delete (Z.to_nat index) (Queue dj)), None).
Proof.
  intros H. unfold RemoveIndex.
  rewrite out_of_range_test, range_test_false by exact H.
  unfold slice.append, slice.upto, slice.from, Queue.
  replace (Z.to_nat (index + 1)) with (S (Z.to_nat index)) by lia.
  rewrite <- delete_take_drop. reflexivity.
Qed.

Lemma ChangeIndex_outside (dj : Dj) (e : QueueEntry) (index : Z) :
  index < 0 \/ index >= len (Queue dj) ->
  ChangeIndex dj e index = (dj, Some errIndexOutOfRange).
Proof.
  intros H. unfold ChangeIndex. rewrite range_test_true by exact H.
  reflexivity.
Qed.

Lemma ChangeIndex_inside (dj : Dj) (e : QueueEntry) (index : Z) :
  0 <= index < len (Queue dj) ->
  ChangeIndex dj e index =
  (set_Items dj (<[Z.to_nat index := e]> (Queue dj)), None).
Proof.
  intros H. unfold ChangeIndex. rewrite range_test_false by exact H.
  reflexivity.
Qed.

Lemma EntryAtIndex_outside (dj : Dj) (index : Z) :
  index < 0 \/ index >= len (Queue dj) ->
  EntryAtIndex dj index = (dj, (QueueEntry_zero, Some errIndexOutOfRange)).
Proof.
  intros H. unfold EntryAtIndex.
  rewrite out_of_range_test, range_test_true by exact H. reflexivity.
Qed.

Lemma EntryAtIndex_inside (dj : Dj) (index : Z) :
  0 <= index < len (Queue dj) ->
  exists entry, Queue dj !! Z.to_nat index = Some entry /\
                EntryAtIndex dj index = (dj, (entry, None)).
Proof.
  intros H. unfold EntryAtIndex.
  rewrite out_of_range_test, range_test_false by exact H.
  destruct (lookup_lt_is_Some_2 (Queue dj) (Z.to_nat index)) as [x Hx];
    [unfold len in H; lia |].
  exists x. split; [exact Hx |]. unfold slice.index, Queue in *.
  rewrite Hx. reflexivity.
Qed.

Lemma in_or_out (index n : Z) :
  {index < 0 \/ index >= n} + {0 <= index < n}.
Proof.
  destruct (Z_lt_dec index 0); [left; lia |].
  destruct (Z_ge_dec index n); [left; lia | right; lia].
Qed.

(** One call agrees with the reference model, in the queue it leaves and in
    the error it reports. *)
Lemma apply_op_refines (dj : Dj) (op : QueueOp) :
  Queue (fst (apply_op dj op)) = fst (RefModel.apply (Queue dj) op) /\
  snd (apply_op dj op) = error_of (snd (RefModel.apply (Queue dj) op)).
Proof.
  destruct op as [e | e i | i | e i]; simpl.
  - split; reflexivity.
  - unfold RefModel.Insert.
    destruct (decide (i < 0)).
    + rewrite InsertEntry_negative by assumption. split; reflexivity.
    + destruct (decide (i >= len (Queue dj))).
      * rewrite InsertEntry_high by assumption. split; reflexivity.
      * rewrite InsertEntry_inside by lia. split; reflexivity.
  - unfold RefModel.RemoveAt.
    destruct (decide (i < 0 \/ i >= len (Queue dj))).
    + rewrite RemoveIndex_outside by assumption. split; reflexivity.
    + rewrite RemoveIndex_inside by lia. split; reflexivity.
  - unfold RefModel.ReplaceAt.
    destruct (decide (i < 0 \/ i >= len (Queue dj))).
    + rewrite ChangeIndex_outside by assumption. split; reflexivity.
    + rewrite ChangeIndex_inside by lia. simpl. split; [| reflexivity].
      apply insert_take_drop. unfold len in *. lia.
Qed.

(** One call changes the length as its contract predicts. *)
Lemma apply_op_length (dj : Dj) (op : QueueOp) :
  len (Queue (fst (apply_op dj op))) =
  len (Queue dj) + RefModel.delta op (outcome_of (snd (apply_op dj op))).
Proof.
  destruct op as [e | e i | i | e i]; simpl.
  - unfold AddEntry. simpl. rewrite len_app1. reflexivity.
  - destruct (in_or_out i (len (Queue dj))) as [[H | H] | H].
    + rewrite InsertEntry_negative by assumption. simpl. lia.
    + rewrite InsertEntry_high by assumption. unfold AddEntry. simpl.
      rewrite len_app1. reflexivity.
    + rewrite InsertEntry_inside by assumption. simpl. unfold len, Queue in *.
      rewrite length_app. simpl. rewrite length_take, length_drop. lia.
  - destruct (in_or_out i (len (Queue dj))) as [H | H].
    + rewrite RemoveIndex_outside by assumption. simpl. lia.
    + rewrite RemoveIndex_inside by assumption. simpl. unfold len, Queue in *.
      rewrite length_delete; [lia |]. apply lookup_lt_is_Some_2. lia.
  - destruct (in_or_out i (len (Queue dj))) as [H | H].
    + rewrite ChangeIndex_outside by assumption. simpl. lia.
    + rewrite ChangeIndex_inside by assumption. simpl. unfold len.
      rewrite length_insert. unfold Queue. lia.
Qed.

Lemma run_ops_app (dj : Dj) (pre post : list QueueOp) :
  run_ops dj (pre ++ post) = run_ops (run_ops dj pre) post.
Proof. unfold run_ops. apply foldl_app. Qed.

Lemma run_ops_refines (ops : list QueueOp) (dj : Dj) :
  Queue (run_ops dj ops) = RefModel.run (Queue dj) ops.
Proof.
  revert dj. induction ops as [| op ops IH]; intros dj; [reflexivity |].
  simpl. unfold run_ops in *. simpl. rewrite IH.
  rewrite (proj1 (apply_op_refines dj op)). reflexivity.
Qed.

(** ** Claims about the queue *)

(** C1.  For every sequence of Add, Insert, RemoveAt and ReplaceAt calls on
    a queue: the queue after the sequence is the list the reference model
    computes from the same calls; and each call of the sequence reports what
    the model reports and changes the length as its contract predicts (plus
    one for Add and a successful Insert, minus one for a successful
    RemoveAt, nothing for a successful ReplaceAt and for every failed
    call). *)
Theorem queue_ops_match_reference (ops : list QueueOp) (dj : Dj) :
  Queue (run_ops dj ops) = RefModel.run (Queue dj) ops /\
  (forall pre op post, ops = pre ++ op :: post ->
     let before := run_ops dj pre in
     let err := snd (apply_op before op) in
     run_ops dj (pre ++ [op]) = fst (apply_op before op) /\
     err = error_of (snd (RefModel.apply (Queue before) op)) /\
     len (Queue (run_ops dj (pre ++ [op]))) =
     len (Queue before) + RefModel.delta op (outcome_of err)).
Proof.
  split; [apply run_ops_refines |].
  intros pre op post _ before err.
  assert (Hstep : run_ops dj (pre ++ [op]) = fst (apply_op before op))
    by (rewrite run_ops_app; reflexivity).
  split; [exact Hstep |]. split.
  - apply apply_op_refines.
  - rewrite Hstep. apply apply_op_length.
Qed.

Lemma queue_ops_match_reference_witness :
  Queue (run_ops (NewDj []) Sample.ops) = [Sample.C; Sample.B] /\
  len (Queue (run_ops (NewDj []) (firstn 5 Sample.ops))) =
  len (Queue (run_ops (NewDj []) (firstn 4 Sample.ops))) + -1.
Proof.
  destruct (queue_ops_match_reference Sample.ops (NewDj [])) as [Hq Hl].
  split.
  - rewrite Hq. reflexivity.
  - exact (proj2 (proj2 (Hl (firstn 4 Sample.ops) (OpRemoveAt 0)
                            [OpReplaceAt Sample.B 1; OpRemoveAt 7] eq_refl))).
Defined.

(** C5.  Insert with an index at or past the length gives the queue Add
    gives, without error; Insert with a negative index fails with the
    out-of-range error and leaves the queue (the whole Dj) as it was. *)
Theorem InsertEntry_bounds (dj : Dj) (e : QueueEntry) (index : Z) :
  (index >= len (Queue dj) ->
   InsertEntry dj e index = (AddEntry dj e, None)) /\
  (index < 0 ->
   InsertEntry dj e index = (dj, Some errIndexOutOfRange)).
Proof.
  split; [apply InsertEntry_high | apply InsertEntry_negative].
Qed.

Lemma InsertEntry_bounds_witness :
  InsertEntry Sample.djABC Sample.B 3 =
  (AddEntry Sample.djABC Sample.B, None) /\
  InsertEntry Sample.djABC Sample.B (-1) =
  (Sample.djABC, Some errIndexOutOfRange).
Proof.
  split.
  - apply (proj1 (InsertEntry_bounds Sample.djABC Sample.B 3)).
    vm_compute. discriminate.
  - apply (proj2 (InsertEntry_bounds Sample.djABC Sample.B (-1))). lia.
Defined.

(** C6.  RemoveIndex, ChangeIndex and EntryAtIndex each return the
    out-of-range error exactly when the index is negative or at least the
    length, return no other error, and whenever they return an error the Dj
    (so the queue) is the one they were given. *)
Theorem index_checks (dj : Dj) (e : QueueEntry) (index : Z) :
  let outside := index < 0 \/ index >= len (Queue dj) in
  let r := RemoveIndex dj index in
  let c := ChangeIndex dj e index in
  let g := EntryAtIndex dj index in
  ((snd r = Some errIndexOutOfRange <-> outside) /\
   (snd r = None <-> ~ outside) /\
   (snd r <> None -> fst r = dj)) /\
  ((snd c = Some errIndexOutOfRange <-> outside) /\
   (snd c = None <-> ~ outside) /\
   (snd c <> None -> fst c = dj)) /\
  ((snd (snd g) = Some errIndexOutOfRange <-> outside) /\
   (snd (snd g) = None <-> ~ outside) /\
   (snd (snd g) <> None -> fst g = dj)).
Proof.
  intros outside r c g. subst outside r c g.
  destruct (in_or_out index (len (Queue dj))) as [H | H].
  - rewrite RemoveIndex_outside, ChangeIndex_outside, EntryAtIndex_outside
      by exact H.
    simpl. repeat split; intros; try congruence; try tauto.
  - rewrite RemoveIndex_inside, ChangeIndex_inside by exact H.
    destruct (EntryAtIndex_inside dj index H) as (x & _ & ->).
    simpl. repeat split; intros; try congruence; try lia.
Qed.

Lemma index_checks_witness :
  fst (RemoveIndex Sample.djABC 3) = Sample.djABC /\
  snd (ChangeIndex Sample.djABC Sample.A (-2)) = Some errIndexOutOfRange /\
  snd (snd (EntryAtIndex Sample.djABC 2)) = None.
Proof.
  split; [| split].
  - apply (index_checks Sample.djABC Sample.A 3). vm_compute. discriminate.
  - apply (index_checks Sample.djABC Sample.A (-2)). left. lia.
  - apply (index_checks Sample.djABC Sample.A 2). vm_compute.
    intros [H | H]; [discriminate H | apply H; reflexivity].
Defined.

(** C7.  [pop] on an empty queue returns the zero entry with
    [ErrorEmptyQueue] and hands back the Dj it was given: the queue is
    still empty, and [currentEntry] and [songStarted] are what they were. *)
Theorem pop_empty (dj : Dj) :
  Queue dj = [] ->
  let '(dj', (entry, err)) := pop dj in
  err = Some ErrorEmptyQueue /\ entry = QueueEntry_zero /\
  Queue dj' = [] /\
  currentEntry dj' = currentEntry dj /\
  songStarted dj' = songStarted dj /\
  dj' = dj.
Proof.
  unfold pop, Queue. intros H. rewrite H. simpl.
  repeat split; first [exact H | reflexivity].
Qed.

Lemma pop_empty_witness :
  let '(dj', (entry, err)) := pop (set_currentEntry (NewDj []) Sample.A) in
  err = Some ErrorEmptyQueue /\ entry = QueueEntry_zero /\
  Queue dj' = [] /\
  currentEntry dj' = Sample.A /\
  songStarted dj' = 0 /\
  dj' = set_currentEntry (NewDj []) Sample.A.
Proof.
  exact (pop_empty (set_currentEntry (NewDj []) Sample.A) eq_refl).
Defined.

(** ** Claims about the queries *)

Lemma wrap64_idem (z : Z) : GoInt.wrap64 (GoInt.wrap64 z) = GoInt.wrap64 z.
Proof.
  pose proof (wrap64_add_l z 0) as H. rewrite !Z.add_0_r in H. exact H.
Qed.

Lemma total_snoc (pre : list QueueEntry) (c : QueueEntry) :
  total (pre ++ [c]) = total pre + Duration (EntryMedia c).
Proof.
  unfold total. induction pre as [| x pre IH]; simpl; [lia |].
  rewrite IH. lia.
Qed.

(** The invariant of the loop of [DurationUntilUser]: after the entries
    [pre], [dur] is [base] plus their durations. *)
Lemma DurationUntilUser_loop_inv (nick : string) (base : Z)
  (rest pre : list QueueEntry) (dur : Z) (durations : list Z) :
  dur = GoInt.wrap64 (base + total pre) ->
  DurationUntilUser_loop nick dur rest durations =
  durations ++
  (wait_before base (pre ++ rest) <$>
   filter (fun i => Owner <$> (pre ++ rest) !! i = Some nick)
          (seq (length pre) (length rest))).
Proof.
  revert pre dur durations.
  induction rest as [| c rest IH]; intros pre dur durations Hdur.
  - simpl. rewrite app_nil_r. reflexivity.
  - cbn [DurationUntilUser_loop length seq].
    rewrite (IH (pre ++ [c])).
    + rewrite <- (app_assoc pre [c] rest). cbn [app].
      rewrite length_app. cbn [length].
      replace (length pre + 1)%nat with (S (length pre)) by lia.
      rewrite filter_cons.
      assert (Hc : (pre ++ c :: rest) !! length pre = Some c)
        by (apply list_lookup_middle; reflexivity).
      assert (Hw : wait_before base (pre ++ c :: rest) (length pre) = dur).
      { unfold wait_before. rewrite take_app_length. symmetry. exact Hdur. }
      destruct (decide (Owner c = nick)) as [Ho | Ho].
      * rewrite decide_True by (rewrite Hc; simpl; congruence).
        unfold slice.append1. rewrite fmap_cons, Hw, <- app_assoc.
        reflexivity.
      * rewrite decide_False by (rewrite Hc; simpl; congruence).
        reflexivity.
    + unfold GoInt.add64. rewrite Hdur, wrap64_add_l, total_snoc.
      f_equal. lia.
Qed.

Lemma UserPosition_loop_inv (nick : string) (rest pre : list QueueEntry)
  (positions : list Z) :
  UserPosition_loop nick (len pre) rest positions =
  positions ++
  (Z.of_nat <$>
   filter (fun i => Owner <$> (pre ++ rest) !! i = Some nick)
          (seq (length pre) (length rest))).
Proof.
  revert pre positions.
  induction rest as [| c rest IH]; intros pre positions.
  - simpl. rewrite app_nil_r. reflexivity.
  - cbn [UserPosition_loop length seq].
    replace (len pre + 1) with (len (pre ++ [c]))
      by (unfold len; rewrite length_app; simpl; lia).
    rewrite IH, <- (app_assoc pre [c] rest). cbn [app].
    rewrite length_app. cbn [length].
    replace (length pre + 1)%nat with (S (length pre)) by lia.
    rewrite filter_cons.
    assert (Hc : (pre ++ c :: rest) !! length pre = Some c)
      by (apply list_lookup_middle; reflexivity).
    destruct (decide (Owner c = nick)) as [Ho | Ho].
    + rewrite decide_True by (rewrite Hc; simpl; congruence).
      unfold slice.append1, len. rewrite fmap_cons, <- app_assoc.
      reflexivity.
    + rewrite decide_False by (rewrite Hc; simpl; congruence).
      reflexivity.
Qed.

(** C4.  [DurationUntilUser] returns one duration for each entry of the
    queue owned by [nick], in queue order (the positions are those
    [UserPosition] reports): the duration for the entry at index [i] is the
    base, that is the duration of the current entry less the time since it
    started, plus the durations of the entries at indices below [i], in
    [time.Duration] arithmetic, which is the exact sum whenever that fits
    64 bits.  For the queue [A(X,10); B(Y,5); C(X,7)] and base 2 the result
    for X is [2; 17]. *)
Theorem DurationUntilUser_waits (dj : Dj) (now : time.Time) (nick : string) :
  let base := GoInt.sub64 (Duration (EntryMedia (currentEntry dj)))
                          (time.Since now (songStarted dj)) in
  DurationUntilUser dj now nick =
    (wait_before base (Queue dj) <$> owned_positions nick (Queue dj)) /\
  UserPosition dj nick = (Z.of_nat <$> owned_positions nick (Queue dj)) /\
  (forall i, GoInt.inInt64 (base + total (take i (Queue dj))) ->
             wait_before base (Queue dj) i =
             base + total (take i (Queue dj))) /\
  DurationUntilUser Sample.djWait 100 Sample.X = [2; 17] /\
  DurationUntilUser_loop Sample.X 2 [Sample.A; Sample.B; Sample.C] [] = [2; 17].
Proof.
  intros base. split; [| split; [| split; [| split]]].
  - unfold DurationUntilUser. fold base.
    rewrite (DurationUntilUser_loop_inv nick base (waitingQueue dj) []).
    + reflexivity.
    + simpl. rewrite Z.add_0_r. unfold base, GoInt.sub64.
      symmetry. apply wrap64_idem.
  - unfold UserPosition.
    exact (UserPosition_loop_inv nick (waitingQueue dj) [] []).
  - intros i Hi. unfold wait_before. apply wrap64_id. exact Hi.
  - vm_compute. reflexivity.
  - vm_compute. reflexivity.
Qed.

Lemma DurationUntilUser_waits_witness :
  wait_before 2 [Sample.A; Sample.B; Sample.C] 2 = 2 + (10 + 5).
Proof.
  refine (proj1 (proj2 (proj2
    (DurationUntilUser_waits Sample.djWait 100 Sample.X))) 2%nat _).
  vm_compute. split; discriminate.
Defined.

(** ** One iteration of the producer *)

(** The queue methods touch the queue only. *)
Lemma apply_op_frame (dj : Dj) (op : QueueOp) :
  fst (apply_op dj op) = set_Items dj (Queue (fst (apply_op dj op))).
Proof.
  destruct dj as [q cur h t].
  destruct op as [e | e i | i | e i]; simpl.
  - reflexivity.
  - unfold InsertEntry. simpl.
    destruct (i <? 0); [reflexivity |]. destruct (i >=? len q); reflexivity.
  - unfold RemoveIndex. simpl.
    destruct ((i >=? len q) || (i <? 0)); reflexivity.
  - unfold ChangeIndex. simpl.
    destruct ((i <? 0) || (i >=? len q)); reflexivity.
Qed.

Lemma run_ops_frame (ops : list QueueOp) (dj : Dj) :
  run_ops dj ops = set_Items dj (Queue (run_ops dj ops)).
Proof.
  revert dj. induction ops as [| op ops IH]; intros dj.
  - destruct dj; reflexivity.
  - unfold run_ops in *. simpl. rewrite IH at 1.
    rewrite (apply_op_frame dj op) at 1. reflexivity.
Qed.

Lemma run_ops_hs (ops : list QueueOp) (dj : Dj) :
  hs (run_ops dj ops) = hs dj.
Proof. rewrite run_ops_frame. reflexivity. Qed.

Lemma pop_nonempty (dj : Dj) (e : QueueEntry) (rest : list QueueEntry) :
  Queue dj = e :: rest -> pop dj = (set_Items dj rest, (e, None)).
Proof.
  unfold pop, Queue. intros ->.
  destruct (Z.ltb_spec (len (e :: rest)) 1) as [H | H]; [| reflexivity].
  unfold len in H. simpl in H. lia.
Qed.

Lemma pop_nil (dj : Dj) :
  Queue dj = [] -> pop dj = (dj, (QueueEntry_zero, Some ErrorEmptyQueue)).
Proof. unfold pop, Queue. intros ->. reflexivity. Qed.

(** The queue is empty at the pop of iteration [n]. *)
Lemma producer_iter_empty (w : World) (n : nat) (dj : Dj) (c : Z) :
  Queue (run_ops dj (others w n)) = [] ->
  producer_iter w n dj c =
  let dj' := set_currentEntry (run_ops dj (others w n)) QueueEntry_zero in
  if c >=? 4 then ([], Break dj')
  else
    match ffmpeg w n (fifoArgs silenceArgs) with
    | Some err =>
      ([EvFfmpeg (fifoArgs silenceArgs) (Some err)],
       Return dj' (fmt_Errorf_w "failed to write to pipe" err))
    | None =>
      ([EvFfmpeg (fifoArgs silenceArgs) None], Continue dj' (c + 1))
    end.
Proof.
  intros Hq. unfold producer_iter. rewrite (pop_nil _ Hq).
  cbn [errors_Is_ErrorEmptyQueue]. cbv zeta.
  destruct (c >=? 4); [reflexivity |].
  unfold writeToFIFO.
  destruct (ffmpeg w n (fifoArgs silenceArgs)); reflexivity.
Qed.

(** The pop of iteration [n] returns [entry]. *)
Lemma producer_iter_entry (w : World) (n : nat) (dj : Dj) (c : Z)
  (entry : QueueEntry) (rest : list QueueEntry) :
  Queue (run_ops dj (others w n)) = entry :: rest ->
  producer_iter w n dj c =
  let dj1 := set_currentEntry (set_Items (run_ops dj (others w n)) rest)
                              entry in
  let dj2 := set_songStarted dj1 (clock w n) in
  let args := audioArgs w n entry in
  match snd (yt_dlp w n (ytArgs entry)) with
  | Some err => ([EvPop entry; EvYtDlp (ytArgs entry) (Some err)],
                 Return dj1 err)
  | None =>
    match ffmpeg w n args with
    | Some err =>
      ([EvPop entry; EvYtDlp (ytArgs entry) None] ++
       call (newSongHandler (hs dj)) (fun f => EvNewSong f entry) ++
       [EvFfmpeg args (Some err)],
       Return dj2 (fmt_Errorf_w "failed to write to pipe" err))
    | None =>
      ([EvPop entry; EvYtDlp (ytArgs entry) None] ++
       call (newSongHandler (hs dj)) (fun f => EvNewSong f entry) ++
       [EvFfmpeg args None] ++
       call (endOfSongHandler (hs dj)) (fun f => EvEndOfSong f entry None),
       Continue dj2 c)
    end
  end.
Proof.
  intros Hq. unfold producer_iter, audioArgs.
  rewrite (pop_nonempty _ _ _ Hq).
  cbv zeta. destruct (yt_dlp w n (ytArgs entry)) as [output [err |]];
    [reflexivity |].
  unfold writeToFIFO. cbn [fst snd].
  destruct (ffmpeg w n _) as [err |].
  - cbn [hs set_currentEntry set_Items]. rewrite run_ops_hs.
    rewrite <- !app_assoc. reflexivity.
  - cbn [hs set_currentEntry set_Items set_songStarted].
    rewrite run_ops_hs. rewrite <- !app_assoc. reflexivity.
Qed.

(** ** The empty queue *)

Lemma set_currentEntry_Queue (dj : Dj) (e : QueueEntry) :
  Queue (set_currentEntry dj e) = Queue dj.
Proof. reflexivity. Qed.

(** While the queue stays empty and the writes succeed, the loop writes one
    segment for each step the counter is short of 4, then breaks. *)
Lemma empty_streak_run (w : World) :
  stays_empty w -> silence_succeeds w ->
  forall (k m n : nat) (dj : Dj) (c : Z),
    Queue dj = [] -> c = 4 - Z.of_nat k ->
    exists dj',
      producer_loop w (S k + m) n dj c =
      (silence_at None <$> seq n k, Some (dj', None)) /\
      Queue dj' = [] /\ currentEntry dj' = QueueEntry_zero.
Proof.
  intros Hempty Hok. induction k as [| k IH]; intros m n dj c Hq Hc.
  - cbn [Nat.add producer_loop].
    rewrite (producer_iter_empty w n dj c (Hempty n dj Hq)).
    cbv zeta. destruct (Z.geb_spec c 4) as [_ | H]; [| lia].
    eexists. split; [reflexivity |]. split; [| reflexivity].
    rewrite set_currentEntry_Queue. apply Hempty, Hq.
  - change (S (S k) + m)%nat with (S (S k + m)). cbn [producer_loop].
    rewrite (producer_iter_empty w n dj c (Hempty n dj Hq)).
    cbv zeta. destruct (Z.geb_spec c 4) as [H | _]; [lia |].
    rewrite (Hok n).
    destruct (IH m (S n)
                (set_currentEntry (run_ops dj (others w n)) QueueEntry_zero)
                (c + 1)) as (dj' & Hrun & Hq' & Hcur).
    + rewrite set_currentEntry_Queue. apply Hempty, Hq.
    + lia.
    + rewrite Hrun. exists dj'. split; [reflexivity |]. split; assumption.
Qed.

(** Whatever the writes do, the loop ends within [4 - c + 1] iterations
    and has run ffmpeg for silence at most [4 - c] times. *)
Lemma empty_streak_bound (w : World) :
  stays_empty w ->
  forall (k m n : nat) (dj : Dj) (c : Z),
    Queue dj = [] -> c = 4 - Z.of_nat k ->
    exists tr dj' err,
      producer_loop w (S k + m) n dj c = (tr, Some (dj', err)) /\
      (length tr <= k)%nat /\
      (forall x, x ∈ tr -> exists i e, x = silence_at e i) /\
      Queue dj' = [] /\ currentEntry dj' = QueueEntry_zero.
Proof.
  intros Hempty. induction k as [| k IH]; intros m n dj c Hq Hc.
  - cbn [Nat.add producer_loop].
    rewrite (producer_iter_empty w n dj c (Hempty n dj Hq)).
    cbv zeta. destruct (Z.geb_spec c 4) as [_ | H]; [| lia].
    eexists _, _, _. split; [reflexivity |]. simpl.
    split; [lia |]. split; [intros x Hx; inversion Hx |].
    split; [| reflexivity]. apply Hempty, Hq.
  - change (S (S k) + m)%nat with (S (S k + m)). cbn [producer_loop].
    rewrite (producer_iter_empty w n dj c (Hempty n dj Hq)).
    cbv zeta. destruct (Z.geb_spec c 4) as [H | _]; [lia |].
    destruct (ffmpeg w n (fifoArgs silenceArgs)) as [err |].
    + eexists _, _, _. split; [reflexivity |]. simpl.
      split; [lia |]. split.
      * intros x Hx. apply list_elem_of_singleton in Hx. subst x.
        eexists _, _. reflexivity.
      * split; [| reflexivity]. apply Hempty, Hq.
    + destruct (IH m (S n)
                  (set_currentEntry (run_ops dj (others w n)) QueueEntry_zero)
                  (c + 1))
        as (tr & dj' & err & Hrun & Hlen & Hall & Hq' & Hcur).
      * rewrite set_currentEntry_Queue. apply Hempty, Hq.
      * lia.
      * rewrite Hrun. eexists _, dj', err. split; [reflexivity |].
        simpl. split; [lia |]. split.
        -- intros x Hx. apply elem_of_cons in Hx. destruct Hx as [-> | Hx].
           ++ eexists _, _. reflexivity.
           ++ apply Hall, Hx.
        -- split; assumption.
Qed.

(** C8.  When an iteration of the producer finds the queue empty, whatever
    happened to the queue before, it clears the current entry; with the
    counter below 4 it runs ffmpeg once for a segment of silence of 15
    seconds ([-t 00:00:15] from [anullsrc]) and, the write done, goes on
    with the counter one higher (a failed write is returned); with the
    counter at 4 it breaks without writing.  While the queue stays empty
    the loop ends within five iterations after at most four such runs,
    whatever they return; when the writes succeed there are exactly [4 - c]
    of them and the goroutine returns no error, so that a session whose
    relay has not failed ends without a call of the error handler. *)
Theorem empty_queue_policy (w : World) (n m : nat) (dj : Dj) (c : Z) :
  let args :=
    ["-re"; "-t"; "00:00:15"; "-f"; "lavfi"; "-i"; "anullsrc";
     "-c:a"; "aac"; "-strict"; "-2"; "-ar"; "44100"; "-b:a"; "160k";
     "-ac"; "2"; "-f"; "mpegts"; "pipe:1"]%string in
  (Queue (run_ops dj (others w n)) = [] ->
   let dj' := set_currentEntry (run_ops dj (others w n)) QueueEntry_zero in
   currentEntry dj' = QueueEntry_zero /\
   (c < 4 -> ffmpeg w n args = None ->
    producer_iter w n dj c =
    ([EvFfmpeg args None], Continue dj' (c + 1))) /\
   (c < 4 -> forall err, ffmpeg w n args = Some err ->
    producer_iter w n dj c =
    ([EvFfmpeg args (Some err)],
     Return dj' (fmt_Errorf_w "failed to write to pipe" err))) /\
   (4 <= c -> producer_iter w n dj c = ([], Break dj'))) /\
  (stays_empty w -> Queue dj = [] -> 0 <= c <= 4 ->
   (exists tr dj' err,
      producer_loop w (5 + m) n dj c = (tr, Some (dj', err)) /\
      (length tr <= 4)%nat /\
      (forall x, x ∈ tr -> exists i e, x = (i, EvFfmpeg args e)) /\
      currentEntry dj' = QueueEntry_zero) /\
   ((forall k, ffmpeg w k args = None) ->
    exists dj',
      producer_loop w (5 + m) n dj c =
      ((fun i => (i, EvFfmpeg args None)) <$> seq n (Z.to_nat (4 - c)),
       Some (dj', None)) /\
      currentEntry dj' = QueueEntry_zero) /\
   ((forall k, ffmpeg w k args = None) -> c = 0 ->
    mkfifo w = None -> openFile w = None -> relay w = None ->
    exists dj',
      Play w (5 + m) dj =
      ((fun i => (i, EvFfmpeg args None)) <$> seq 0 4, Done dj' None []))).
Proof.
  intros args. change args with (fifoArgs silenceArgs). clear args.
  split.
  - intros Hq dj'. subst dj'.
    rewrite (producer_iter_empty w n dj c Hq). cbv zeta.
    split; [reflexivity |]. split; [| split].
    + intros Hlt Hok. destruct (Z.geb_spec c 4) as [H | _]; [lia |].
      rewrite Hok. reflexivity.
    + intros Hlt err Herr. destruct (Z.geb_spec c 4) as [H | _]; [lia |].
      rewrite Herr. reflexivity.
    + intros Hge. destruct (Z.geb_spec c 4) as [_ | H]; [reflexivity | lia].
  - intros Hempty Hq Hc. split; [| split].
    + destruct (empty_streak_bound w Hempty (Z.to_nat (4 - c))
                  (m + Z.to_nat c) n dj c Hq)
        as (tr & dj' & err & Hrun & Hlen & Hall & _ & Hcur); [lia |].
      replace (S (Z.to_nat (4 - c)) + (m + Z.to_nat c))%nat
        with (5 + m)%nat in Hrun by lia.
      exists tr, dj', err. repeat split; try assumption. lia.
    + intros Hok.
      destruct (empty_streak_run w Hempty Hok (Z.to_nat (4 - c))
                  (m + Z.to_nat c) n dj c Hq)
        as (dj' & Hrun & Hq' & Hcur); [lia |].
      replace (S (Z.to_nat (4 - c)) + (m + Z.to_nat c))%nat
        with (5 + m)%nat in Hrun by lia.
      exists dj'. split; assumption.
    + intros Hok -> Hmk Hopen Hrelay.
      destruct (empty_streak_run w Hempty Hok 4 m 0 dj 0 Hq)
        as (dj' & Hrun & _ & _); [lia |].
      exists dj'. unfold Play, producer. rewrite Hmk, Hopen.
      change (S 4 + m)%nat with (5 + m)%nat in Hrun. rewrite Hrun.
      unfold eg_Wait, consumer. rewrite Hrelay.
      destruct (relayFirst w); reflexivity.
Qed.

Lemma stays_empty_fine : stays_empty Sample.fine.
Proof. intros n dj Hq. exact Hq. Qed.

Lemma empty_queue_policy_witness :
  (exists dj',
     producer_iter Sample.refill 3 (set_currentEntry (NewDj []) Sample.A) 2 =
     ([EvFfmpeg (fifoArgs silenceArgs) None], Continue dj' 3) /\
     currentEntry dj' = QueueEntry_zero) /\
  (exists dj',
     Play Sample.fine 5 (NewDj []) =
     (silence_at None <$> seq 0 4, Done dj' None [])).
Proof.
  split.
  - destruct (proj1 (empty_queue_policy Sample.refill 3 0
                       (set_currentEntry (NewDj []) Sample.A) 2) eq_refl)
      as (Hcur & Hstep & _).
    eexists. split; [apply Hstep; [lia | reflexivity] | exact Hcur].
  - destruct (proj2 (empty_queue_policy Sample.fine 0 0 (NewDj []) 0)
                stays_empty_fine eq_refl ltac:(lia))
      as (_ & _ & H).
    exact (H (fun k => eq_refl) eq_refl eq_refl eq_refl eq_refl).
Defined.

(** ** The counter of empty pops *)

(** C3 (the code does not do this).  The counter [emptyStreamCounter] only
    ever goes up: an iteration that pops an entry and goes on leaves it as
    it is, it is not set back to zero.  With [Sample.refill] the queue is
    empty twice, then [A] is played, and the loop breaks after only two
    more silence segments, four in the whole session. *)
Theorem counter_is_never_reset :
  (forall (w : World) (n : nat) (dj : Dj) (c : Z),
     match snd (producer_iter w n dj c) with
     | Continue _ c' =>
       if decide (Queue (run_ops dj (others w n)) = [])
       then c' = c + 1 else c' = c
     | _ => True
     end) /\
  (exists dj',
     producer_iter Sample.refill 2%nat (Sample.withHandlers []) 2 =
     ([EvPop Sample.A; EvYtDlp (ytArgs Sample.A) None;
       EvNewSong 1%nat Sample.A;
       EvFfmpeg (fifoArgs (songArgs "cdn:http://a")) None;
       EvEndOfSong 2%nat Sample.A None],
      Continue dj' 2)) /\
  (forall fuel, exists dj',
     Play Sample.refill (6 + fuel) (Sample.withHandlers []) =
     ([silence_at None 0%nat; silence_at None 1%nat;
       (2%nat, EvPop Sample.A); (2%nat, EvYtDlp (ytArgs Sample.A) None);
       (2%nat, EvNewSong 1%nat Sample.A);
       (2%nat, EvFfmpeg (fifoArgs (songArgs "cdn:http://a")) None);
       (2%nat, EvEndOfSong 2%nat Sample.A None);
       silence_at None 3%nat; silence_at None 4%nat],
      Done dj' None [])).
Proof.
  split; [| split].
  - intros w n dj c.
    destruct (Queue (run_ops dj (others w n))) as [| e rest] eqn:Hq.
    + rewrite (producer_iter_empty w n dj c Hq). cbv zeta.
      destruct (c >=? 4); [exact I |].
      destruct (ffmpeg w n _); [exact I |]. cbn [snd].
      rewrite decide_True by reflexivity. reflexivity.
    + rewrite (producer_iter_entry w n dj c e rest Hq). cbv zeta.
      destruct (snd (yt_dlp w n (ytArgs e))); [exact I |].
      destruct (ffmpeg w n _); [exact I |]. cbn [snd].
      rewrite decide_False by discriminate. reflexivity.
  - eexists. vm_compute. reflexivity.
  - intros fuel. eexists. cbn. reflexivity.
Qed.

(** ** A failed stream *)

(** C2 (the code does not do this).  In every iteration a run of ffmpeg
    that fails makes the goroutine return the error, and the end-of-song
    handler is never given an error.  With the queue [A; B] and the run of
    ffmpeg for [A] exiting with status 1, the goroutine returns at once:
    the end-of-song handler is not called, [B] is never popped and stays in
    the queue, and [Play] ends after handing the error to the error
    handler. *)
Theorem encode_failure_ends_session :
  (forall (w : World) (n : nat) (dj : Dj) (c : Z),
     Forall (failure_is_returned (snd (producer_iter w n dj c)))
            (fst (producer_iter w n dj c))) /\
  (forall fuel : nat,
     let err := fmt_Errorf_w "failed to write to pipe" Sample.exit1 in
     Play Sample.encodeFails (S fuel)
          (Sample.withHandlers [Sample.A; Sample.B]) =
     ([(0%nat, EvPop Sample.A); (0%nat, EvYtDlp (ytArgs Sample.A) None);
       (0%nat, EvNewSong 1%nat Sample.A);
       (0%nat, EvFfmpeg (fifoArgs (songArgs "cdn:http://a"))
                        (Some Sample.exit1))],
      Done (mkDj [Sample.B] Sample.A
                 (mkHandlers (Some 1%nat) (Some 2%nat) (Some 3%nat)) 0)
           (Some err) [EvError 3%nat err])).
Proof.
  split.
  - intros w n dj c.
    destruct (Queue (run_ops dj (others w n))) as [| e rest] eqn:Hq.
    + rewrite (producer_iter_empty w n dj c Hq). cbv zeta.
      destruct (c >=? 4); [constructor |].
      destruct (ffmpeg w n _); repeat constructor. eexists. reflexivity.
    + rewrite (producer_iter_entry w n dj c e rest Hq). cbv zeta.
      destruct (snd (yt_dlp w n (ytArgs e))); [repeat constructor |].
      destruct (ffmpeg w n _), (newSongHandler (hs dj)),
        (endOfSongHandler (hs dj));
        repeat constructor; eexists; reflexivity.
  - intros fuel. reflexivity.
Qed.

(** ** The entry being played *)

(** C10.  [CurrentlyPlaying] reports the error exactly when the [Media] of
    the current entry is the zero value (empty title, empty URL, duration
    zero); with or without the error it returns the current entry and the
    time since [songStarted].  So an entry whose [Media] is the zero value
    is reported as not playing while it is the current entry: after the
    iteration of the producer that popped and streamed it. *)
Theorem CurrentlyPlaying_zero_Media (dj : Dj) (now : time.Time) :
  let '(entry, progress, err) := CurrentlyPlaying dj now in
  entry = currentEntry dj /\
  progress = time.Since now (songStarted dj) /\
  (err = Some errNoSong <->
   Title (EntryMedia (currentEntry dj)) = "" /\
   URL (EntryMedia (currentEntry dj)) = "" /\
   Duration (EntryMedia (currentEntry dj)) = 0) /\
  (err = None <-> EntryMedia (currentEntry dj) <> Media_zero) /\
  (forall (w : World) (n : nat) (c : Z) (e : QueueEntry)
          (rest : list QueueEntry) evs dj' c',
      EntryMedia e = Media_zero ->
      Queue (run_ops dj (others w n)) = e :: rest ->
      producer_iter w n dj c = (evs, Continue dj' c') ->
      CurrentlyPlaying dj' now =
      (e, time.Since now (clock w n), Some errNoSong)).
Proof.
  unfold CurrentlyPlaying.
  split; [reflexivity |]. split; [reflexivity |].
  split; [| split].
  - destruct (currentEntry dj) as [[t u d] o de]. simpl.
    destruct (decide (mkMedia t u d = Media_zero)) as [H | H].
    + inversion H. subst. tauto.
    + split; [discriminate |]. intros (-> & -> & ->). exfalso. apply H.
      reflexivity.
  - destruct (decide (EntryMedia (currentEntry dj) = Media_zero));
      split; intros; congruence.
  - intros w n c e rest evs dj' c' Hz Hq Hit.
    rewrite (producer_iter_entry w n dj c e rest Hq) in Hit. cbv zeta in Hit.
    destruct (snd (yt_dlp w n (ytArgs e))); [discriminate |].
    destruct (ffmpeg w n _); [discriminate |].
    inversion Hit; subst. cbn. rewrite decide_True by exact Hz.
    reflexivity.
Qed.

Lemma CurrentlyPlaying_zero_Media_witness :
  CurrentlyPlaying
    (mkDj [] Sample.blank (mkHandlers None None None) 0) 700 =
  (Sample.blank, 700, Some errNoSong).
Proof.
  pose proof (CurrentlyPlaying_zero_Media (NewDj [Sample.blank]) 700) as H.
  cbv beta iota delta [CurrentlyPlaying] in H.
  destruct H as (_ & _ & _ & _ & H).
  exact (H Sample.fine 0%nat 0 Sample.blank [] _ _ _ eq_refl eq_refl eq_refl).
Defined.

(** ** The order of a session *)

Lemma producer_iter_hs (w : World) (n : nat) (dj : Dj) (c : Z) :
  match snd (producer_iter w n dj c) with
  | Continue dj' _ | Break dj' | Return dj' _ => hs dj' = hs dj
  end.
Proof.
  destruct (Queue (run_ops dj (others w n))) as [| e rest] eqn:Hq.
  - rewrite (producer_iter_empty w n dj c Hq). cbv zeta.
    destruct (c >=? 4); [apply run_ops_hs |].
    destruct (ffmpeg w n _); apply run_ops_hs.
  - rewrite (producer_iter_entry w n dj c e rest Hq). cbv zeta.
    destruct (snd (yt_dlp w n (ytArgs e))); [apply run_ops_hs |].
    destruct (ffmpeg w n _); apply run_ops_hs.
Qed.

(** An iteration that goes on after popping [entry] has done all of
    [song_events]; one that found the queue empty has popped nothing. *)
Lemma producer_iter_Continue (w : World) (n : nat) (dj dj' : Dj) (c c' : Z)
  (evs : list event) (A : QueueEntry) :
  producer_iter w n dj c = (evs, Continue dj' c') ->
  EvPop A ∈ evs ->
  evs = song_events w (hs dj) n A.
Proof.
  intros Hit Hin.
  destruct (Queue (run_ops dj (others w n))) as [| e rest] eqn:Hq.
  - rewrite (producer_iter_empty w n dj c Hq) in Hit. cbv zeta in Hit.
    destruct (c >=? 4); [discriminate |].
    destruct (ffmpeg w n _); [discriminate |].
    inversion Hit; subst. apply list_elem_of_singleton in Hin. discriminate.
  - rewrite (producer_iter_entry w n dj c e rest Hq) in Hit. cbv zeta in Hit.
    destruct (snd (yt_dlp w n (ytArgs e))); [discriminate |].
    destruct (ffmpeg w n _); [discriminate |].
    inversion Hit; subst. clear Hit.
    assert (A = e) as ->; [| reflexivity].
    destruct (newSongHandler (hs dj)), (endOfSongHandler (hs dj));
      simpl in Hin;
      repeat (apply elem_of_cons in Hin; destruct Hin as [Hin | Hin];
              [congruence |]);
      inversion Hin.
Qed.

(** The first event of an iteration that pops is the pop, and everything
    the iteration does is about the popped entry. *)
Lemma producer_iter_pop (w : World) (n : nat) (dj : Dj) (c : Z)
  (A : QueueEntry) :
  EvPop A ∈ fst (producer_iter w n dj c) ->
  (exists evs, fst (producer_iter w n dj c) = EvPop A :: evs) /\
  (forall ev, ev ∈ fst (producer_iter w n dj c) ->
              of_entry w (hs dj) n A ev).
Proof.
  intros Hin.
  destruct (Queue (run_ops dj (others w n))) as [| e rest] eqn:Hq.
  - exfalso. rewrite (producer_iter_empty w n dj c Hq) in Hin.
    cbv zeta in Hin. destruct (c >=? 4); [inversion Hin |].
    destruct (ffmpeg w n _); simpl in Hin;
      apply list_elem_of_singleton in Hin; discriminate.
  - rewrite (producer_iter_entry w n dj c e rest Hq) in Hin |- *.
    cbv zeta in Hin |- *.
    assert (A = e) as ->.
    { destruct (snd (yt_dlp w n (ytArgs e))), (newSongHandler (hs dj)),
        (endOfSongHandler (hs dj)); try destruct (ffmpeg w n _);
        simpl in Hin;
        repeat (apply elem_of_cons in Hin; destruct Hin as [Hin | Hin];
                [congruence |]);
        inversion Hin. }
    split.
    + destruct (snd (yt_dlp w n (ytArgs e))); [eexists; reflexivity |].
      destruct (ffmpeg w n _); eexists; reflexivity.
    + intros ev Hev.
      destruct (snd (yt_dlp w n (ytArgs e))),
        (newSongHandler (hs dj)) eqn:Hn,
        (endOfSongHandler (hs dj)) eqn:He;
        try destruct (ffmpeg w n _);
        simpl in Hev;
        repeat (apply elem_of_cons in Hev; destruct Hev as [-> | Hev];
                [simpl; auto |]);
        inversion Hev.
Qed.

(** The events of the loop from iteration [n] on carry numbers from [n]. *)
Lemma producer_loop_tags (w : World) (fuel : nat) :
  forall (n : nat) (dj : Dj) (c : Z) tr res,
    producer_loop w fuel n dj c = (tr, res) ->
    forall x, x ∈ tr -> (n <= fst x)%nat.
Proof.
  induction fuel as [| fuel IH]; intros n dj c tr res Hrun x Hx.
  - simpl in Hrun. inversion Hrun; subst. inversion Hx.
  - cbn [producer_loop] in Hrun.
    destruct (producer_iter w n dj c) as [evs r].
    assert (Hhere : forall y, y ∈ ((fun ev => (n, ev)) <$> evs) -> fst y = n).
    { intros y Hy. apply list_elem_of_fmap in Hy.
      destruct Hy as (ev & -> & _). reflexivity. }
    destruct r as [dj' c' | dj' | dj' err].
    + destruct (producer_loop w fuel (S n) dj' c') as [tr' res'] eqn:Hrest.
      inversion Hrun; subst. apply elem_of_app in Hx.
      destruct Hx as [Hx | Hx].
      * rewrite (Hhere x Hx). lia.
      * specialize (IH _ _ _ _ _ Hrest x Hx). lia.
    + inversion Hrun; subst. rewrite (Hhere x Hx). lia.
    + inversion Hrun; subst. rewrite (Hhere x Hx). lia.
Qed.

(** An event of an earlier iteration comes earlier in the trace. *)
Lemma producer_loop_sorted (w : World) (fuel : nat) :
  forall (n : nat) (dj : Dj) (c : Z) tr res,
    producer_loop w fuel n dj c = (tr, res) ->
    forall p q x y, tr !! p = Some x -> tr !! q = Some y ->
                    (fst x < fst y)%nat -> (p < q)%nat.
Proof.
  induction fuel as [| fuel IH]; intros n dj c tr res Hrun p q x y Hp Hq Hlt.
  - simpl in Hrun. inversion Hrun; subst. rewrite lookup_nil in Hp.
    discriminate.
  - cbn [producer_loop] in Hrun.
    destruct (producer_iter w n dj c) as [evs r].
    set (T := (fun ev => (n, ev)) <$> evs) in *.
    assert (Hhere : forall k z, T !! k = Some z -> fst z = n).
    { intros k z Hz. apply list_elem_of_lookup_2 in Hz.
      apply list_elem_of_fmap in Hz. destruct Hz as (ev & -> & _).
      reflexivity. }
    assert (Hone : forall tr', tr = T ++ tr' ->
              (forall z, z ∈ tr' -> (S n <= fst z)%nat) ->
              (forall p' q', tr' !! p' = Some x -> tr' !! q' = Some y ->
                             (p' < q')%nat) ->
              (p < q)%nat).
    { intros tr' -> Htags Hrec.
      destruct (decide (p < length T)%nat) as [Hpl | Hpl],
               (decide (q < length T)%nat) as [Hql | Hql].
      - rewrite lookup_app_l in Hp, Hq by assumption.
        rewrite (Hhere _ _ Hp), (Hhere _ _ Hq) in Hlt. lia.
      - lia.
      - rewrite lookup_app_l in Hq by assumption.
        rewrite lookup_app_r in Hp by lia.
        apply list_elem_of_lookup_2, Htags in Hp.
        rewrite (Hhere _ _ Hq) in Hlt. lia.
      - rewrite lookup_app_r in Hp, Hq by lia.
        specialize (Hrec _ _ Hp Hq). lia. }
    destruct r as [dj' c' | dj' | dj' err].
    + destruct (producer_loop w fuel (S n) dj' c') as [tr' res'] eqn:Hrest.
      inversion Hrun; subst tr res. apply (Hone tr' eq_refl).
      * intros z Hz. exact (producer_loop_tags _ _ _ _ _ _ _ Hrest z Hz).
      * intros p' q' Hp' Hq'. exact (IH _ _ _ _ _ Hrest _ _ _ _ Hp' Hq' Hlt).
    + inversion Hrun; subst tr res. apply (Hone []).
      * rewrite app_nil_r. reflexivity.
      * intros z Hz. inversion Hz.
      * intros p' q' Hp'. rewrite lookup_nil in Hp'. discriminate.
    + inversion Hrun; subst tr res. apply (Hone []).
      * rewrite app_nil_r. reflexivity.
      * intros z Hz. inversion Hz.
      * intros p' q' Hp'. rewrite lookup_nil in Hp'. discriminate.
Qed.

(** Everything iteration [k] does after popping [A] is about [A]. *)
Lemma producer_loop_of_entry (w : World) (fuel : nat) :
  forall (n : nat) (dj : Dj) (c : Z) tr res,
    producer_loop w fuel n dj c = (tr, res) ->
    forall k A ev, (k, EvPop A) ∈ tr -> (k, ev) ∈ tr ->
                   of_entry w (hs dj) k A ev.
Proof.
  induction fuel as [| fuel IH]; intros n dj c tr res Hrun k A ev HA Hev.
  - simpl in Hrun. inversion Hrun; subst. inversion HA.
  - cbn [producer_loop] in Hrun.
    pose proof (producer_iter_hs w n dj c) as Hhs.
    pose proof (producer_iter_pop w n dj c) as Hpop.
    destruct (producer_iter w n dj c) as [evs r]. cbn [fst snd] in *.
    assert (Hhere : forall z, (k, z) ∈ ((fun ev => (n, ev)) <$> evs) ->
                              k = n /\ z ∈ evs).
    { intros z Hz. apply list_elem_of_fmap in Hz.
      destruct Hz as (ev' & Heq & Hin). inversion Heq; subst. auto. }
    assert (Hnow : forall z, (k, EvPop A) ∈ ((fun ev => (n, ev)) <$> evs) ->
                             (k, z) ∈ ((fun ev => (n, ev)) <$> evs) ->
                             of_entry w (hs dj) k A z).
    { intros z H1 H2. apply Hhere in H1, H2.
      destruct H1 as [-> H1], H2 as [_ H2].
      exact (proj2 (Hpop A H1) z H2). }
    destruct r as [dj' c' | dj' | dj' err].
    + destruct (producer_loop w fuel (S n) dj' c') as [tr' res'] eqn:Hrest.
      inversion Hrun; subst tr res.
      pose proof (producer_loop_tags _ _ _ _ _ _ _ Hrest) as Htags.
      apply elem_of_app in HA, Hev.
      destruct HA as [HA | HA], Hev as [Hev | Hev].
      * apply Hnow; assumption.
      * apply Hhere in HA. apply Htags in Hev. simpl in Hev. lia.
      * apply Hhere in Hev. apply Htags in HA. simpl in HA. lia.
      * rewrite <- Hhs. exact (IH _ _ _ _ _ Hrest _ _ _ HA Hev).
    + inversion Hrun; subst tr res. apply Hnow; assumption.
    + inversion Hrun; subst tr res. apply Hnow; assumption.
Qed.

(** The trace splits at a pop: what is before belongs to earlier
    iterations. *)
Lemma producer_loop_split (w : World) (fuel : nat) :
  forall (n : nat) (dj : Dj) (c : Z) tr res,
    producer_loop w fuel n dj c = (tr, res) ->
    forall j B, (j, EvPop B) ∈ tr ->
    exists mid post,
      tr = mid ++ (j, EvPop B) :: post /\
      (forall x, x ∈ mid -> (n <= fst x < j)%nat) /\
      (forall x, x ∈ post -> (j <= fst x)%nat).
Proof.
  induction fuel as [| fuel IH]; intros n dj c tr res Hrun j B HB.
  - simpl in Hrun. inversion Hrun; subst. inversion HB.
  - cbn [producer_loop] in Hrun.
    pose proof (producer_iter_pop w n dj c) as Hpop.
    destruct (producer_iter w n dj c) as [evs r]. cbn [fst snd] in *.
    assert (Hhere : forall z, z ∈ ((fun ev => (n, ev)) <$> evs) ->
                              fst z = n /\ snd z ∈ evs).
    { intros z Hz. apply list_elem_of_fmap in Hz.
      destruct Hz as (ev' & -> & Hin). auto. }
    assert (Hnow : forall tr', (j, EvPop B) ∈ ((fun ev => (n, ev)) <$> evs) ->
              (forall x, x ∈ tr' -> (S n <= fst x)%nat) ->
              exists mid post,
                ((fun ev => (n, ev)) <$> evs) ++ tr' =
                mid ++ (j, EvPop B) :: post /\
                (forall x, x ∈ mid -> (n <= fst x < j)%nat) /\
                (forall x, x ∈ post -> (j <= fst x)%nat)).
    { intros tr' Hin Htags. apply Hhere in Hin. destruct Hin as [Hj Hin].
      simpl in Hj, Hin. subst j.
      destruct (proj1 (Hpop B Hin)) as [rest Hevs].
      exists [], (((fun ev => (n, ev)) <$> rest) ++ tr').
      split; [rewrite Hevs; reflexivity |].
      split; [intros x Hx; inversion Hx |].
      intros x Hx. apply elem_of_app in Hx. destruct Hx as [Hx | Hx].
      - apply list_elem_of_fmap in Hx. destruct Hx as (ev' & -> & _).
        simpl. lia.
      - apply Htags in Hx. lia. }
    destruct r as [dj' c' | dj' | dj' err].
    + destruct (producer_loop w fuel (S n) dj' c') as [tr' res'] eqn:Hrest.
      inversion Hrun; subst tr res.
      pose proof (producer_loop_tags _ _ _ _ _ _ _ Hrest) as Htags.
      apply elem_of_app in HB. destruct HB as [HB | HB].
      * apply Hnow; assumption.
      * destruct (IH _ _ _ _ _ Hrest j B HB)
          as (mid & post & -> & Hmid & Hpost).
        exists (((fun ev => (n, ev)) <$> evs) ++ mid), post.
        split; [rewrite app_assoc; reflexivity |]. split; [| exact Hpost].
        intros x Hx. apply elem_of_app in Hx. destruct Hx as [Hx | Hx].
        -- apply Hhere in Hx. apply Htags in HB. simpl in HB. lia.
        -- apply Hmid in Hx. lia.
    + inversion Hrun; subst tr res.
      destruct (Hnow [] HB) as (mid & post & Heq & H1 & H2).
      * intros x Hx. inversion Hx.
      * rewrite app_nil_r in Heq. eauto.
    + inversion Hrun; subst tr res.
      destruct (Hnow [] HB) as (mid & post & Heq & H1 & H2).
      * intros x Hx. inversion Hx.
      * rewrite app_nil_r in Heq. eauto.
Qed.

(** When [A] is popped in iteration [i] and [B] in a later iteration [j],
    the trace holds all of [song_events] for [A], in one piece, before the
    pop of [B]. *)
Lemma producer_loop_block (w : World) (fuel : nat) :
  forall (n : nat) (dj : Dj) (c : Z) tr res,
    producer_loop w fuel n dj c = (tr, res) ->
    forall i j A B, (i < j)%nat ->
    (i, EvPop A) ∈ tr -> (j, EvPop B) ∈ tr ->
    exists pre mid post,
      tr = pre ++ ((fun ev => (i, ev)) <$> song_events w (hs dj) i A) ++
           mid ++ (j, EvPop B) :: post /\
      (forall x, x ∈ pre -> (n <= fst x < i)%nat) /\
      (forall x, x ∈ mid -> (i < fst x < j)%nat) /\
      (forall x, x ∈ post -> (j <= fst x)%nat).
Proof.
  induction fuel as [| fuel IH];
    intros n dj c tr res Hrun i j A B Hij HA HB.
  - simpl in Hrun. inversion Hrun; subst. inversion HA.
  - cbn [producer_loop] in Hrun.
    pose proof (producer_iter_hs w n dj c) as Hhs.
    destruct (producer_iter w n dj c) as [evs r] eqn:Hit.
    cbn [fst snd] in *.
    assert (Hhere : forall z, z ∈ ((fun ev => (n, ev)) <$> evs) ->
                              fst z = n /\ snd z ∈ evs).
    { intros z Hz. apply list_elem_of_fmap in Hz.
      destruct Hz as (ev' & -> & Hin). auto. }
    destruct r as [dj' c' | dj' | dj' err].
    + destruct (producer_loop w fuel (S n) dj' c') as [tr' res'] eqn:Hrest.
      inversion Hrun; subst tr res.
      pose proof (producer_loop_tags _ _ _ _ _ _ _ Hrest) as Htags.
      apply elem_of_app in HA. destruct HA as [HA | HA].
      * apply Hhere in HA. destruct HA as [Hi HA]. simpl in Hi, HA. subst i.
        apply elem_of_app in HB. destruct HB as [HB | HB];
          [apply Hhere in HB; simpl in HB; lia |].
        rewrite (producer_iter_Continue _ _ _ _ _ _ _ _ Hit HA).
        destruct (producer_loop_split _ _ _ _ _ _ _ Hrest j B HB)
          as (mid & post & -> & Hmid & Hpost).
        exists [], mid, post. split; [reflexivity |].
        split; [intros x Hx; inversion Hx |]. split; [| exact Hpost].
        intros x Hx. apply Hmid in Hx. lia.
      * assert (HB' : (j, EvPop B) ∈ tr').
        { apply elem_of_app in HB. destruct HB as [HB | HB]; [| exact HB].
          apply Hhere in HB. apply Htags in HA. simpl in HA, HB. lia. }
        destruct (IH _ _ _ _ _ Hrest i j A B Hij HA HB')
          as (pre & mid & post & -> & Hpre & Hmid & Hpost).
        exists (((fun ev => (n, ev)) <$> evs) ++ pre), mid, post.
        rewrite Hhs. split; [rewrite <- app_assoc; reflexivity |].
        split; [| split; assumption].
        intros x Hx. apply elem_of_app in Hx. destruct Hx as [Hx | Hx].
        -- apply Hhere in Hx. apply Htags in HA. simpl in HA. lia.
        -- apply Hpre in Hx. lia.
    + inversion Hrun; subst tr res.
      apply Hhere in HA, HB. simpl in HA, HB. lia.
    + inversion Hrun; subst tr res.
      apply Hhere in HA, HB. simpl in HA, HB. lia.
Qed.

(** The trace of [Play] is the trace of the loop. *)
Lemma Play_trace (w : World) (fuel : nat) (dj : Dj) tr res :
  Play w fuel dj = (tr, res) ->
  tr = [] \/ exists r, producer_loop w fuel 0 dj 0 = (tr, r).
Proof.
  unfold Play, producer. intros H.
  destruct (mkfifo w); [inversion H; auto |].
  destruct (openFile w).
  - destruct (eg_Wait w _ _); inversion H; auto.
  - destruct (producer_loop w fuel 0 dj 0) as [tr' [[dj' perr] |]].
    + destruct (eg_Wait w _ _); inversion H; subst; eauto.
    + inversion H; subst; eauto.
Qed.

(** C9.  In every run of [Play], when [A] is popped in an iteration [i] and
    [B] in a later iteration [j]: the trace holds, in one piece and before
    the pop of [B], the pop of [A], the new-song callback for [A], the run
    of ffmpeg that streams [A], returned without error, and the end-of-song
    callback for [A] (the callbacks when registered); what iteration [j]
    does is about [B] and comes after its pop; so every run of ffmpeg for
    [A] comes before every run of ffmpeg for [B], and every end-of-song
    callback of [A] before every new-song callback of [B]. *)
Theorem Play_order (w : World) (fuel : nat) (dj : Dj)
  (tr : list (nat * event)) (res : play_end)
  (i j : nat) (A B : QueueEntry) :
  Play w fuel dj = (tr, res) ->
  (i < j)%nat -> (i, EvPop A) ∈ tr -> (j, EvPop B) ∈ tr ->
  (exists pre mid post,
     tr = pre ++ ((fun ev => (i, ev)) <$> song_events w (hs dj) i A) ++
          mid ++ (j, EvPop B) :: post /\
     (forall x, x ∈ pre -> (fst x < i)%nat) /\
     (forall x, x ∈ mid -> (i < fst x < j)%nat) /\
     (forall x, x ∈ post -> (j <= fst x)%nat)) /\
  (i, EvFfmpeg (audioArgs w i A) None) ∈ tr /\
  (forall f, endOfSongHandler (hs dj) = Some f ->
             (i, EvEndOfSong f A None) ∈ tr) /\
  (forall ev, (i, ev) ∈ tr -> of_entry w (hs dj) i A ev) /\
  (forall ev, (j, ev) ∈ tr -> of_entry w (hs dj) j B ev) /\
  (forall a ea b eb, precedes tr (i, EvFfmpeg a ea) (j, EvFfmpeg b eb)) /\
  (forall f X e g Y,
     precedes tr (i, EvEndOfSong f X e) (j, EvNewSong g Y)).
Proof.
  intros HPlay Hij HA HB.
  destruct (Play_trace _ _ _ _ _ HPlay) as [-> | [r Hrun]];
    [inversion HA |].
  destruct (producer_loop_block _ _ _ _ _ _ _ Hrun i j A B Hij HA HB)
    as (pre & mid & post & Heq & Hpre & Hmid & Hpost).
  assert (Hblock : forall ev, ev ∈ song_events w (hs dj) i A ->
                              (i, ev) ∈ tr).
  { intros ev Hev. rewrite Heq. apply elem_of_app. right.
    apply elem_of_app. left. apply list_elem_of_fmap. eauto. }
  split; [| split; [| split; [| split; [| split; [| split]]]]].
  - exists pre, mid, post. split; [exact Heq |].
    split; [| split; assumption]. intros x Hx. apply Hpre in Hx. lia.
  - apply Hblock. unfold song_events.
    rewrite !elem_of_app, !elem_of_cons. auto 10.
  - intros f Hf. apply Hblock. unfold song_events. rewrite Hf.
    rewrite !elem_of_app. right. right. right. simpl.
    apply list_elem_of_singleton. reflexivity.
  - intros ev Hev.
    exact (producer_loop_of_entry _ _ _ _ _ _ _ Hrun _ _ _ HA Hev).
  - intros ev Hev.
    exact (producer_loop_of_entry _ _ _ _ _ _ _ Hrun _ _ _ HB Hev).
  - intros a ea b eb p q Hp Hq.
    exact (producer_loop_sorted _ _ _ _ _ _ _ Hrun _ _ _ _ Hp Hq Hij).
  - intros f X e g Y p q Hp Hq.
    exact (producer_loop_sorted _ _ _ _ _ _ _ Hrun _ _ _ _ Hp Hq Hij).
Qed.

Lemma Play_order_witness :
  (0%nat, EvFfmpeg (audioArgs Sample.fine 0 Sample.A) None)
    ∈ fst (Play Sample.fine 2 (Sample.withHandlers [Sample.A; Sample.B])) /\
  precedes (fst (Play Sample.fine 2 (Sample.withHandlers [Sample.A; Sample.B])))
           (0%nat, EvEndOfSong 2%nat Sample.A None)
           (1%nat, EvNewSong 1%nat Sample.B).
Proof.
  pose proof (Play_order Sample.fine 2
                (Sample.withHandlers [Sample.A; Sample.B])
                _ _ 0%nat 1%nat Sample.A Sample.B eq_refl) as H.
  destruct H as (_ & Haudio & _ & _ & _ & _ & Hcb).
  - lia.
  - vm_compute. apply list_elem_of_here.
  - vm_compute. do 5 apply list_elem_of_further. apply list_elem_of_here.
  - split; [exact Haudio | apply Hcb].
Defined.

(** * Further properties of the queue *)

Lemma set_Items_Queue (dj : Dj) : set_Items dj (Queue dj) = dj.
Proof. destruct dj; reflexivity. Qed.

Lemma filter_seq_ascending (P : nat -> Prop) `{!forall i, Decision (P i)}
  (n : nat) :
  forall (a p q x y : nat),
    filter P (seq a n) !! p = Some x -> filter P (seq a n) !! q = Some y ->
    (p < q)%nat -> (x < y)%nat.
Proof.
  induction n as [| n IH]; intros a p q x y Hp Hq Hpq.
  - cbn [seq] in Hp. rewrite filter_nil, lookup_nil in Hp. discriminate.
  - cbn [seq] in Hp, Hq. rewrite filter_cons in Hp, Hq.
    destruct (decide (P a)).
    + destruct q as [| q]; [lia |]. simpl in Hq.
      destruct p as [| p].
      * simpl in Hp. inversion Hp; subst.
        apply list_elem_of_lookup_2, list_elem_of_filter in Hq.
        destruct Hq as [_ Hq]. apply elem_of_seq in Hq. lia.
      * simpl in Hp. apply (IH (S a) p q); [assumption | assumption | lia].
    + apply (IH (S a) p q); assumption.
Qed.

Lemma UserPosition_owned (dj : Dj) (nick : string) :
  UserPosition dj nick = Z.of_nat <$> owned_positions nick (Queue dj).
Proof. exact (UserPosition_loop_inv nick (waitingQueue dj) [] []). Qed.

Lemma DurationUntilUser_owned (dj : Dj) (now : time.Time) (nick : string) :
  DurationUntilUser dj now nick =
  wait_before (GoInt.sub64 (Duration (EntryMedia (currentEntry dj)))
                           (time.Since now (songStarted dj)))
              (Queue dj) <$> owned_positions nick (Queue dj).
Proof.
  unfold DurationUntilUser.
  rewrite (DurationUntilUser_loop_inv nick
             (GoInt.sub64 (Duration (EntryMedia (currentEntry dj)))
                          (time.Since now (songStarted dj)))
             (waitingQueue dj) []).
  - reflexivity.
  - simpl. rewrite Z.add_0_r. unfold GoInt.sub64. symmetry.
    apply wrap64_idem.
Qed.

(** X1.  [UserPosition] returns exactly the indices of the queue whose
    entry has the owner asked for, each once and in ascending order. *)
Theorem UserPosition_positions (dj : Dj) (nick : string) :
  (forall i : Z,
     i ∈ UserPosition dj nick <->
     0 <= i < len (Queue dj) /\
     Owner <$> Queue dj !! Z.to_nat i = Some nick) /\
  (forall (p q : nat) (a b : Z),
     (p < q)%nat ->
     UserPosition dj nick !! p = Some a ->
     UserPosition dj nick !! q = Some b -> a < b).
Proof.
  rewrite UserPosition_owned. unfold owned_positions. split.
  - intros i. rewrite list_elem_of_fmap. split.
    + intros (k & -> & Hk). apply list_elem_of_filter in Hk.
      destruct Hk as [HP Hk]. apply elem_of_seq in Hk.
      rewrite Nat2Z.id. unfold len. split; [lia | exact HP].
    + intros [Hi HP]. exists (Z.to_nat i). split; [lia |].
      apply list_elem_of_filter. split; [exact HP |].
      apply elem_of_seq. unfold len in Hi. lia.
  - intros p q a b Hpq Hp Hq.
    rewrite list_lookup_fmap in Hp, Hq.
    destruct (filter _ _ !! p) as [x |] eqn:Hx; [| discriminate].
    destruct (filter _ _ !! q) as [y |] eqn:Hy; [| discriminate].
    simpl in Hp, Hq. inversion Hp; inversion Hq; subst.
    pose proof (filter_seq_ascending _ _ _ _ _ _ _ Hx Hy Hpq). lia.
Qed.

Lemma UserPosition_positions_witness :
  2 ∈ UserPosition Sample.djABC Sample.X.
Proof.
  apply (proj1 (UserPosition_positions Sample.djABC Sample.X) 2).
  split; [unfold len; simpl; lia | reflexivity].
Defined.

(** X2.  [DurationUntilUser] and [UserPosition] return lists of the same
    length, and both are empty exactly when no entry of the queue has the
    owner asked for. *)
Theorem owner_queries_agree (dj : Dj) (now : time.Time) (nick : string) :
  length (DurationUntilUser dj now nick) = length (UserPosition dj nick) /\
  (UserPosition dj nick = [] <->
   forall c, c ∈ Queue dj -> Owner c <> nick) /\
  (DurationUntilUser dj now nick = [] <->
   forall c, c ∈ Queue dj -> Owner c <> nick).
Proof.
  rewrite UserPosition_owned, DurationUntilUser_owned.
  assert (Hnone : owned_positions nick (Queue dj) = [] <->
                  forall c, c ∈ Queue dj -> Owner c <> nick).
  { unfold owned_positions. split.
    - intros Hnil c Hc Ho. apply list_elem_of_lookup_1 in Hc.
      destruct Hc as [i Hi].
      assert (Hin : i ∈ filter
                (fun i => Owner <$> Queue dj !! i = Some nick)
                (seq 0 (length (Queue dj)))).
      { apply list_elem_of_filter. split.
        - rewrite Hi. simpl. congruence.
        - apply elem_of_seq. apply lookup_lt_Some in Hi. lia. }
      rewrite Hnil in Hin. inversion Hin.
    - intros Hall.
      destruct (filter _ _) as [| i l] eqn:Hf; [reflexivity |].
      assert (Hin : i ∈ filter
                (fun i => Owner <$> Queue dj !! i = Some nick)
                (seq 0 (length (Queue dj))))
        by (rewrite Hf; apply list_elem_of_here).
      apply list_elem_of_filter in Hin. destruct Hin as [HP _].
      destruct (Queue dj !! i) as [c |] eqn:Hc; [| discriminate].
      simpl in HP. inversion HP.
      exfalso. apply (Hall c); [| assumption].
      exact (list_elem_of_lookup_2 _ _ _ Hc). }
  rewrite !length_fmap. split; [reflexivity |].
  rewrite <- Hnone. split.
  - split; [apply fmap_nil_inv | intros ->; reflexivity].
  - split; [apply fmap_nil_inv | intros ->; reflexivity].
Qed.

Lemma owner_queries_agree_witness :
  DurationUntilUser (NewDj [Sample.B]) 9 Sample.X = [].
Proof.
  apply (proj2 (proj2 (owner_queries_agree (NewDj [Sample.B]) 9 Sample.X))).
  intros c Hc. apply list_elem_of_singleton in Hc. subst c. discriminate.
Defined.

Lemma Queue_set_Items (dj : Dj) (items : list QueueEntry) :
  Queue (set_Items dj items) = items.
Proof. reflexivity. Qed.

Lemma EntryAtIndex_Some (dj : Dj) (j : Z) (x : QueueEntry) :
  0 <= j -> Queue dj !! Z.to_nat j = Some x ->
  EntryAtIndex dj j = (dj, (x, None)).
Proof.
  intros Hj Hx.
  destruct (EntryAtIndex_inside dj j) as (y & Hy & ->).
  - apply lookup_lt_Some in Hx. unfold len. lia.
  - congruence.
Qed.

Lemma lookup_in_range (dj : Dj) (j : Z) :
  0 <= j < len (Queue dj) -> exists x, Queue dj !! Z.to_nat j = Some x.
Proof.
  intros Hj. apply lookup_lt_is_Some_2. unfold len in Hj. lia.
Qed.

(** The queue [InsertEntry] leaves, for every index it accepts. *)
Lemma InsertEntry_Queue (dj : Dj) (e : QueueEntry) (index : Z) :
  0 <= index ->
  let k := Z.to_nat (Z.min index (len (Queue dj))) in
  InsertEntry dj e index =
  (set_Items dj (take k (Queue dj) ++ e :: drop k (Queue dj)), None).
Proof.
  intros Hi k. subst k.
  destruct (Z_lt_dec index (len (Queue dj))) as [Hlt | Hge].
  - rewrite InsertEntry_inside by lia.
    rewrite Z.min_l by lia. reflexivity.
  - rewrite InsertEntry_high by lia. rewrite Z.min_r by lia.
    unfold len. rewrite Nat2Z.id, take_ge, drop_ge by (unfold Queue; lia).
    reflexivity.
Qed.

(** X3.  After [InsertEntry] with an index that is not negative,
    [EntryAtIndex] finds the new entry at that index (at the end when the
    index is past the end), the entries before it where they were and the
    entries from it on one place further. *)
Theorem InsertEntry_then_EntryAtIndex (dj : Dj) (e : QueueEntry) (index : Z) :
  0 <= index ->
  let dj' := fst (InsertEntry dj e index) in
  snd (EntryAtIndex dj' (Z.min index (len (Queue dj)))) = (e, None) /\
  (forall j, 0 <= j < len (Queue dj) ->
     snd (EntryAtIndex dj' (if j <? index then j else j + 1)) =
     snd (EntryAtIndex dj j)).
Proof.
  intros Hi dj'. subst dj'. rewrite (InsertEntry_Queue dj e index Hi).
  cbn [fst].
  set (k := Z.to_nat (Z.min index (len (Queue dj)))).
  pose proof (len_nonneg (Queue dj)) as Hlen.
  assert (Hk : (k <= length (Queue dj))%nat) by (unfold k, len in *; lia).
  split.
  - erewrite EntryAtIndex_Some; [reflexivity | lia |].
    fold k. unfold Queue at 1. cbn [set_Items waitingQueue].
    rewrite lookup_app_r by (rewrite length_take; lia).
    rewrite length_take. replace (k - k `min` length (Queue dj))%nat
      with 0%nat by lia. reflexivity.
  - intros j Hj. destruct (lookup_in_range dj j Hj) as [x Hx].
    rewrite (EntryAtIndex_Some dj j x) by (lia || exact Hx).
    erewrite EntryAtIndex_Some; [reflexivity | |].
    + destruct (j <? index); lia.
    + unfold Queue at 1. cbn [set_Items waitingQueue].
      destruct (Z.ltb_spec j index) as [Hlt | Hge].
      * rewrite lookup_app_l by (rewrite length_take; unfold k, len in *; lia).
        rewrite lookup_take_lt by (unfold k, len in *; lia). exact Hx.
      * rewrite lookup_app_r by (rewrite length_take; unfold k, len in *; lia).
        rewrite length_take.
        rewrite lookup_cons_ne_0 by (unfold k, len in *; lia).
        rewrite lookup_drop.
        replace (k + Nat.pred (Z.to_nat (j + 1) -
                               k `min` length (Queue dj)))%nat
          with (Z.to_nat j) by (unfold k, len in *; lia).
        exact Hx.
Qed.

Lemma InsertEntry_then_EntryAtIndex_witness :
  snd (EntryAtIndex (fst (InsertEntry Sample.djABC Demo.D 1)) 1) =
  (Demo.D, None).
Proof.
  exact (proj1 (InsertEntry_then_EntryAtIndex Sample.djABC Demo.D 1
                  ltac:(lia))).
Defined.

(** X4.  [RemoveIndex] undoes [InsertEntry]: removing at the index where
    the entry was put (the old length when the index was past the end)
    gives back the Dj as it was, without error. *)
Theorem InsertEntry_then_RemoveIndex (dj : Dj) (e : QueueEntry) (index : Z) :
  0 <= index ->
  RemoveIndex (fst (InsertEntry dj e index))
              (Z.min index (len (Queue dj))) = (dj, None).
Proof.
  intros Hi. rewrite (InsertEntry_Queue dj e index Hi). cbn [fst].
  set (k := Z.to_nat (Z.min index (len (Queue dj)))).
  pose proof (len_nonneg (Queue dj)) as Hlen.
  assert (Hk : (k <= length (Queue dj))%nat) by (unfold k, len in *; lia).
  rewrite RemoveIndex_inside.
  - fold k. rewrite Queue_set_Items, delete_take_drop.
    rewrite take_app_length' by (rewrite length_take; lia).
    rewrite cons_middle, app_assoc.
    rewrite drop_app_length'
      by (rewrite length_app, length_take; simpl; lia).
    rewrite take_drop. destruct dj; reflexivity.
  - rewrite Queue_set_Items. unfold len in *.
    rewrite length_app, length_take. simpl. rewrite length_drop. lia.
Qed.

Lemma InsertEntry_then_RemoveIndex_witness :
  RemoveIndex (fst (InsertEntry Sample.djABC Demo.D 9)) 3 =
  (Sample.djABC, None).
Proof.
  exact (InsertEntry_then_RemoveIndex Sample.djABC Demo.D 9 ltac:(lia)).
Defined.

(** X5.  After a successful [ChangeIndex], [EntryAtIndex] finds the new
    entry at the index and every other entry where it was; changing the
    same index again leaves only the last entry given. *)
Theorem ChangeIndex_then_EntryAtIndex (dj : Dj) (e e' : QueueEntry)
  (index : Z) :
  0 <= index < len (Queue dj) ->
  let dj' := fst (ChangeIndex dj e index) in
  snd (EntryAtIndex dj' index) = (e, None) /\
  (forall j, j <> index ->
     snd (EntryAtIndex dj' j) = snd (EntryAtIndex dj j)) /\
  ChangeIndex dj' e' index = ChangeIndex dj e' index.
Proof.
  intros Hi dj'. subst dj'. rewrite (ChangeIndex_inside dj e index Hi).
  cbn [fst]. split; [| split].
  - erewrite EntryAtIndex_Some; [reflexivity | lia |].
    rewrite Queue_set_Items. apply list_lookup_insert_eq.
    unfold len in Hi. lia.
  - intros j Hj.
    destruct (in_or_out j (len (Queue dj))) as [Hout | Hin].
    + rewrite !EntryAtIndex_outside; [reflexivity | exact Hout |].
      rewrite Queue_set_Items. unfold len in *. rewrite length_insert.
      exact Hout.
    + destruct (lookup_in_range dj j Hin) as [x Hx].
      rewrite (EntryAtIndex_Some dj j x) by (lia || exact Hx).
      erewrite EntryAtIndex_Some; [reflexivity | lia |].
      rewrite Queue_set_Items, list_lookup_insert_ne by lia. exact Hx.
  - rewrite !ChangeIndex_inside.
    + rewrite Queue_set_Items, list_insert_insert_eq.
      destruct dj; reflexivity.
    + exact Hi.
    + rewrite Queue_set_Items. unfold len in *. rewrite length_insert.
      exact Hi.
Qed.

Lemma ChangeIndex_then_EntryAtIndex_witness :
  snd (EntryAtIndex (fst (ChangeIndex Sample.djABC Demo.D 2)) 2) =
  (Demo.D, None).
Proof.
  refine (proj1 (ChangeIndex_then_EntryAtIndex Sample.djABC Demo.D Demo.D 2
                   _)).
  unfold len. simpl. lia.
Defined.

(** X6.  After a successful [RemoveIndex], the entries before the index are
    where they were and every later entry is one place nearer the front;
    the removed slot is the only one that goes. *)
Theorem RemoveIndex_then_EntryAtIndex (dj : Dj) (index : Z) :
  0 <= index < len (Queue dj) ->
  let dj' := fst (RemoveIndex dj index) in
  forall j, 0 <= j ->
    snd (EntryAtIndex dj' j) =
    snd (EntryAtIndex dj (if j <? index then j else j + 1)).
Proof.
  intros Hi dj' j Hj. subst dj'. rewrite (RemoveIndex_inside dj index Hi).
  cbn [fst].
  assert (Hlen : len (delete (Z.to_nat index) (Queue dj)) = len (Queue dj) - 1).
  { unfold len in *. rewrite length_delete; [lia |].
    apply lookup_lt_is_Some_2. lia. }
  destruct (Z_lt_dec j (len (Queue dj) - 1)) as [Hin | Hout].
  - assert (Hl : delete (Z.to_nat index) (Queue dj) !! Z.to_nat j =
                 Queue dj !! Z.to_nat (if j <? index then j else j + 1)).
    { destruct (Z.ltb_spec j index).
      - apply list_lookup_delete_lt. lia.
      - rewrite list_lookup_delete_ge by lia. f_equal. lia. }
    destruct (lookup_in_range dj (if j <? index then j else j + 1))
      as [x Hx]; [destruct (j <? index); lia |].
    rewrite (EntryAtIndex_Some dj _ x)
      by (destruct (j <? index); lia || exact Hx).
    erewrite EntryAtIndex_Some; [reflexivity | lia |].
    rewrite Queue_set_Items, Hl. exact Hx.
  - rewrite !EntryAtIndex_outside; [reflexivity | |].
    + destruct (Z.ltb_spec j index); lia.
    + rewrite Queue_set_Items, Hlen. lia.
Qed.

Lemma RemoveIndex_then_EntryAtIndex_witness :
  snd (EntryAtIndex (fst (RemoveIndex Sample.djABC 0)) 1) =
  snd (EntryAtIndex Sample.djABC 2).
Proof.
  refine (RemoveIndex_then_EntryAtIndex Sample.djABC 0 _ 1 _).
  - unfold len. simpl. lia.
  - lia.
Defined.

(** X7.  [pop] on a queue that is not empty returns what [EntryAtIndex]
    finds at index 0 and leaves what [RemoveIndex] at index 0 leaves. *)
Theorem pop_is_front (dj : Dj) :
  Queue dj <> [] ->
  pop dj = (fst (RemoveIndex dj 0), (fst (snd (EntryAtIndex dj 0)), None)).
Proof.
  intros Hne. destruct (Queue dj) as [| e rest] eqn:Hq; [congruence |].
  rewrite (pop_nonempty dj e rest Hq).
  rewrite RemoveIndex_inside by (rewrite Hq; unfold len; simpl; lia).
  rewrite (EntryAtIndex_Some dj 0 e) by (lia || rewrite Hq; reflexivity).
  rewrite Hq. reflexivity.
Qed.

Lemma pop_is_front_witness :
  pop Sample.djABC =
  (fst (RemoveIndex Sample.djABC 0),
   (fst (snd (EntryAtIndex Sample.djABC 0)), None)).
Proof. apply pop_is_front. discriminate. Defined.

Lemma pop_n_take_drop (n : nat) :
  forall dj, pop_n n dj =
             (take n (Queue dj), set_Items dj (drop n (Queue dj))).
Proof.
  induction n as [| n IH]; intros dj.
  - simpl. rewrite drop_0, set_Items_Queue. reflexivity.
  - cbn [pop_n]. destruct (Queue dj) as [| e rest] eqn:Hq.
    + rewrite (pop_nil dj Hq). simpl. rewrite <- Hq, set_Items_Queue.
      reflexivity.
    + rewrite (pop_nonempty dj e rest Hq), IH, Queue_set_Items.
      destruct dj; reflexivity.
Qed.

Lemma AddEntry_all (es : list QueueEntry) :
  forall dj, Queue (foldl AddEntry dj es) = Queue dj ++ es.
Proof.
  induction es as [| e es IH]; intros dj; simpl.
  - rewrite app_nil_r. reflexivity.
  - rewrite IH. unfold AddEntry, slice.append1.
    rewrite Queue_set_Items, <- app_assoc. reflexivity.
Qed.

(** X8.  The queue is first in, first out: [n] calls of [pop] return the
    first [n] entries in queue order and leave the rest; so the entries
    added with [AddEntry] to an empty queue come back from [pop] in the
    order they were added, and the queue is empty again. *)
Theorem pop_first_in_first_out (n : nat) (dj : Dj) (es : list QueueEntry) :
  pop_n n dj = (take n (Queue dj), set_Items dj (drop n (Queue dj))) /\
  (Queue dj = [] ->
   pop_n (length es) (foldl AddEntry dj es) = (es, dj)).
Proof.
  split; [apply pop_n_take_drop |].
  intros Hq. rewrite pop_n_take_drop, AddEntry_all, Hq. cbn [app].
  rewrite firstn_all, drop_all.
  assert (Hfr : forall l d, set_Items (foldl AddEntry d l) [] = set_Items d []).
  { induction l as [| x l IHl]; intros d; [reflexivity |].
    simpl. rewrite IHl. reflexivity. }
  rewrite Hfr, <- Hq, set_Items_Queue. reflexivity.
Qed.

Lemma pop_first_in_first_out_witness :
  pop_n 3 (foldl AddEntry (NewDj []) [Sample.C; Sample.A; Sample.B]) =
  ([Sample.C; Sample.A; Sample.B], NewDj []).
Proof.
  exact (proj2 (pop_first_in_first_out 0 (NewDj [])
                  [Sample.C; Sample.A; Sample.B]) eq_refl).
Defined.

(** X9.  An entry inserted at index 0 is the next one [pop] returns, and
    popping it gives back the Dj as it was; an entry added at the end of a
    queue that is not empty does not change what [pop] returns next. *)
Theorem InsertEntry_front_is_next (dj : Dj) (e : QueueEntry) :
  pop (fst (InsertEntry dj e 0)) = (dj, (e, None)) /\
  (Queue dj <> [] -> snd (pop (AddEntry dj e)) = snd (pop dj)).
Proof.
  split.
  - rewrite (InsertEntry_Queue dj e 0) by lia. cbn [fst].
    rewrite Z.min_l by apply len_nonneg. simpl take. simpl drop.
    rewrite (pop_nonempty _ e (Queue dj)) by reflexivity.
    destruct dj; reflexivity.
  - intros Hne. destruct (Queue dj) as [| x rest] eqn:Hq; [congruence |].
    rewrite (pop_nonempty dj x rest Hq).
    rewrite (pop_nonempty (AddEntry dj e) x (rest ++ [e])); [reflexivity |].
    unfold AddEntry, slice.append1. rewrite Queue_set_Items.
    unfold Queue in Hq. rewrite Hq. reflexivity.
Qed.

Lemma InsertEntry_front_is_next_witness :
  snd (pop (AddEntry Sample.djABC Demo.D)) = snd (pop Sample.djABC).
Proof.
  apply (proj2 (InsertEntry_front_is_next Sample.djABC Demo.D)).
  discriminate.
Defined.

(** X10.  No sequence of AddEntry, InsertEntry, RemoveIndex and ChangeIndex
    calls, and no number of pops, changes the handlers or what
    [CurrentlyPlaying] reports. *)
Theorem queue_methods_keep_playback (dj : Dj) (ops : list QueueOp)
  (n : nat) (now : time.Time) :
  CurrentlyPlaying (run_ops dj ops) now = CurrentlyPlaying dj now /\
  hs (run_ops dj ops) = hs dj /\
  CurrentlyPlaying (snd (pop_n n dj)) now = CurrentlyPlaying dj now /\
  hs (snd (pop_n n dj)) = hs dj.
Proof.
  rewrite pop_n_take_drop. cbn [snd].
  rewrite (run_ops_frame ops dj). repeat split; reflexivity.
Qed.

(** * Further properties of the queries *)

Lemma wrap64_range (z : Z) : GoInt.inInt64 (GoInt.wrap64 z).
Proof.
  unfold GoInt.inInt64, GoInt.minInt64, GoInt.maxInt64, GoInt.wrap64.
  pose proof (Z.mod_pos_bound (z + 2 ^ 63) (2 ^ 64) ltac:(lia)). lia.
Qed.

(** The two loops read the owner and the duration of an entry, nothing
    else. *)
Lemma loops_read_owner_and_duration (nick : string)
  (l l' : list QueueEntry) :
  Owner <$> l = Owner <$> l' ->
  (fun c => Duration (EntryMedia c)) <$> l =
  (fun c => Duration (EntryMedia c)) <$> l' ->
  (forall i acc, UserPosition_loop nick i l acc =
                 UserPosition_loop nick i l' acc) /\
  (forall dur acc, DurationUntilUser_loop nick dur l acc =
                   DurationUntilUser_loop nick dur l' acc).
Proof.
  revert l'. induction l as [| c l IH]; intros [| c' l'] Ho Hd;
    rewrite ?fmap_nil, ?fmap_cons in Ho; rewrite ?fmap_nil, ?fmap_cons in Hd;
    try discriminate; [split; reflexivity |].
  inversion Ho as [[Ho1 Ho2]].
  inversion Hd as [[Hd1 Hd2]].
  destruct (IH l' Ho2 Hd2) as [IHu IHd].
  split; intros; cbn [UserPosition_loop DurationUntilUser_loop];
    rewrite Ho1, ?Hd1; [apply IHu | apply IHd].
Qed.

(** X11.  [ChangeDedication] fails like [ChangeIndex] outside the queue and
    leaves the Dj alone; inside, it sets the dedication of the entry at the
    index and nothing else: media and owner of every entry, every other
    entry, and so the positions and the waiting times of every owner are
    what they were. *)
Theorem ChangeDedication_only_dedication (dj : Dj) (index : Z)
  (dedication : string) :
  (index < 0 \/ index >= len (Queue dj) ->
   ChangeDedication dj index dedication = (dj, Some errIndexOutOfRange)) /\
  (0 <= index < len (Queue dj) ->
   let dj' := fst (ChangeDedication dj index dedication) in
   snd (ChangeDedication dj index dedication) = None /\
   Dedication <$> Queue dj' !! Z.to_nat index = Some dedication /\
   EntryMedia <$> Queue dj' = EntryMedia <$> Queue dj /\
   Owner <$> Queue dj' = Owner <$> Queue dj /\
   (forall j, j <> Z.to_nat index -> Queue dj' !! j = Queue dj !! j) /\
   (forall nick now,
      UserPosition dj' nick = UserPosition dj nick /\
      DurationUntilUser dj' now nick = DurationUntilUser dj now nick)).
Proof.
  unfold ChangeDedication. split.
  - intros Hout. rewrite range_test_true by exact Hout. reflexivity.
  - intros Hin. rewrite range_test_false by exact Hin. cbn [fst snd].
    destruct (lookup_in_range dj index Hin) as [old Hold].
    unfold slice.index, slice.set. unfold Queue in Hold. rewrite Hold.
    cbn [default]. rewrite Queue_set_Items.
    assert (Hm : EntryMedia <$>
                 <[Z.to_nat index :=
                     mkQueueEntry (EntryMedia old) (Owner old) dedication]>
                 (waitingQueue dj) = EntryMedia <$> waitingQueue dj).
    { rewrite list_fmap_insert. apply list_insert_id.
      rewrite list_lookup_fmap, Hold. reflexivity. }
    assert (Ho : Owner <$>
                 <[Z.to_nat index :=
                     mkQueueEntry (EntryMedia old) (Owner old) dedication]>
                 (waitingQueue dj) = Owner <$> waitingQueue dj).
    { rewrite list_fmap_insert. apply list_insert_id.
      rewrite list_lookup_fmap, Hold. reflexivity. }
    split; [reflexivity |]. split.
    { rewrite list_lookup_insert_eq by (unfold len, Queue in Hin; lia).
      reflexivity. }
    split; [exact Hm |]. split; [exact Ho |]. split.
    { intros j Hj. apply list_lookup_insert_ne. congruence. }
    intros nick now.
    assert (Hd : (fun c => Duration (EntryMedia c)) <$>
                 <[Z.to_nat index :=
                     mkQueueEntry (EntryMedia old) (Owner old) dedication]>
                 (waitingQueue dj) =
                 (fun c => Duration (EntryMedia c)) <$> waitingQueue dj).
    { rewrite list_fmap_insert. apply list_insert_id.
      rewrite list_lookup_fmap, Hold. reflexivity. }
    destruct (loops_read_owner_and_duration nick _ _ Ho Hd) as [Hu Hw].
    split; [apply Hu | apply Hw].
Qed.

Lemma ChangeDedication_only_dedication_witness :
  UserPosition (fst (ChangeDedication Sample.djABC 1 "to X")) Sample.Y =
  UserPosition Sample.djABC Sample.Y.
Proof.
  destruct (proj2 (ChangeDedication_only_dedication Sample.djABC 1 "to X"))
    as (_ & _ & _ & _ & _ & H).
  - unfold len. simpl. lia.
  - exact (proj1 (H Sample.Y 0)).
Defined.

Lemma UserPosition_loop_app (nick : string) (l1 l2 : list QueueEntry) :
  forall i acc,
    UserPosition_loop nick i (l1 ++ l2) acc =
    UserPosition_loop nick (i + len l1) l2 (UserPosition_loop nick i l1 acc).
Proof.
  induction l1 as [| c l1 IH]; intros i acc.
  - simpl. rewrite Z.add_0_r. reflexivity.
  - cbn [app UserPosition_loop]. rewrite IH. f_equal.
    unfold len. simpl length. lia.
Qed.

Lemma DurationUntilUser_loop_app (nick : string)
  (l1 l2 : list QueueEntry) :
  forall dur acc,
    DurationUntilUser_loop nick dur (l1 ++ l2) acc =
    DurationUntilUser_loop nick
      (foldl (fun d c => GoInt.add64 d (Duration (EntryMedia c))) dur l1)
      l2 (DurationUntilUser_loop nick dur l1 acc).
Proof.
  induction l1 as [| c l1 IH]; intros dur acc; [reflexivity |].
  cbn [app DurationUntilUser_loop foldl]. apply IH.
Qed.

Lemma running_total (l : list QueueEntry) :
  forall z,
    foldl (fun d c => GoInt.add64 d (Duration (EntryMedia c)))
          (GoInt.wrap64 z) l = GoInt.wrap64 (z + total l).
Proof.
  induction l as [| c l IH]; intros z.
  - simpl. rewrite Z.add_0_r. reflexivity.
  - cbn [foldl]. unfold GoInt.add64 at 2. rewrite wrap64_add_l, IH.
    f_equal. simpl. lia.
Qed.

Lemma running_total_of (l : list QueueEntry) (d : Z) :
  GoInt.wrap64 d = d ->
  foldl (fun d c => GoInt.add64 d (Duration (EntryMedia c))) d l =
  GoInt.wrap64 (d + total l).
Proof. intros Hd. rewrite <- Hd at 1. apply running_total. Qed.

(** X12.  [AddEntry] puts the new entry behind everything already queued:
    the positions and waiting times reported before stay as they are, and
    for the owner of the new entry one position, the old length, and one
    waiting time, the base plus the durations of the whole earlier queue,
    are added at the end. *)
Theorem AddEntry_waits_for_all (dj : Dj) (e : QueueEntry)
  (now : time.Time) (nick : string) :
  let base := GoInt.sub64 (Duration (EntryMedia (currentEntry dj)))
                          (time.Since now (songStarted dj)) in
  UserPosition (AddEntry dj e) nick =
  UserPosition dj nick ++
  (if decide (Owner e = nick) then [len (Queue dj)] else []) /\
  DurationUntilUser (AddEntry dj e) now nick =
  DurationUntilUser dj now nick ++
  (if decide (Owner e = nick)
   then [GoInt.wrap64 (base + total (Queue dj))] else []).
Proof.
  intros base. unfold UserPosition, DurationUntilUser, AddEntry.
  cbn [waitingQueue set_Items currentEntry songStarted]. fold base.
  split.
  - unfold slice.append1 at 1.
    rewrite UserPosition_loop_app. cbn [UserPosition_loop].
    unfold slice.append1, Queue.
    destruct (decide (Owner e = nick)); [| rewrite app_nil_r]; reflexivity.
  - unfold slice.append1 at 1.
    rewrite DurationUntilUser_loop_app. cbn [DurationUntilUser_loop].
    rewrite running_total_of
      by (unfold base, GoInt.sub64; apply wrap64_idem).
    unfold slice.append1, Queue.
    destruct (decide (Owner e = nick)); [| rewrite app_nil_r]; reflexivity.
Qed.

Lemma total_app (l1 l2 : list QueueEntry) :
  total (l1 ++ l2) = total l1 + total l2.
Proof.
  unfold total. induction l1 as [| c l1 IH]; simpl; [reflexivity |].
  rewrite IH. lia.
Qed.

Lemma total_nonneg (l : list QueueEntry) :
  Forall (fun c => 0 <= Duration (EntryMedia c)) l -> 0 <= total l.
Proof.
  unfold total. induction 1 as [| c l Hc _ IH]; simpl; lia.
Qed.

(** With durations that are not negative, the sum over a prefix grows with
    the prefix and stays below the sum over the queue. *)
Lemma total_take_mono (l : list QueueEntry) (i j : nat) :
  Forall (fun c => 0 <= Duration (EntryMedia c)) l ->
  (i <= j <= length l)%nat ->
  0 <= total (take i l) <= total (take j l) /\
  total (take j l) <= total l.
Proof.
  intros Hl Hij.
  assert (Hj : total l = total (take j l) + total (drop j l))
    by (rewrite <- total_app, take_drop; reflexivity).
  assert (Hi : total (take j l) =
               total (take i l) + total (take (j - i) (drop i l))).
  { rewrite <- total_app. f_equal.
    rewrite <- (take_drop i l) at 1.
    rewrite take_app_ge by (rewrite length_take; lia).
    rewrite length_take. f_equal. f_equal. lia. }
  assert (0 <= total (take i l))
    by (apply total_nonneg, Forall_take, Hl).
  assert (0 <= total (drop j l))
    by (apply total_nonneg, Forall_drop, Hl).
  assert (0 <= total (take (j - i) (drop i l)))
    by (apply total_nonneg, Forall_take, Forall_drop, Hl).
  lia.
Qed.

(** X13.  When no entry of the queue has a negative duration and the base
    plus all the durations fits 64 bits, every waiting time
    [DurationUntilUser] returns lies between the base and the base plus
    the durations of the whole queue, and the waiting times never go down
    along the list: a later entry of an owner never plays before an
    earlier one. *)
Theorem DurationUntilUser_ascending (dj : Dj) (now : time.Time)
  (nick : string) :
  let base := GoInt.sub64 (Duration (EntryMedia (currentEntry dj)))
                          (time.Since now (songStarted dj)) in
  Forall (fun c => 0 <= Duration (EntryMedia c)) (Queue dj) ->
  GoInt.inInt64 (base + total (Queue dj)) ->
  (forall (p : nat) (a : time.Duration),
     DurationUntilUser dj now nick !! p = Some a ->
     base <= a <= base + total (Queue dj)) /\
  (forall (p q : nat) (a b : time.Duration),
     (p <= q)%nat ->
     DurationUntilUser dj now nick !! p = Some a ->
     DurationUntilUser dj now nick !! q = Some b ->
     a <= b).
Proof.
  intros base Hpos Hfit.
  pose proof (wrap64_range (Duration (EntryMedia (currentEntry dj)) -
                            time.Since now (songStarted dj))) as Hb.
  fold (GoInt.sub64 (Duration (EntryMedia (currentEntry dj)))
                    (time.Since now (songStarted dj))) in Hb.
  fold base in Hb. unfold GoInt.inInt64 in Hb, Hfit.
  assert (Hat : forall p a,
            DurationUntilUser dj now nick !! p = Some a ->
            exists x, owned_positions nick (Queue dj) !! p = Some x /\
                      (x < length (Queue dj))%nat /\
                      a = base + total (take x (Queue dj))).
  { intros p a Hp. rewrite DurationUntilUser_owned in Hp. fold base in Hp.
    rewrite list_lookup_fmap in Hp.
    destruct (owned_positions nick (Queue dj) !! p) as [x |] eqn:Hx;
      [| discriminate].
    simpl in Hp. inversion Hp; subst a. exists x. split; [reflexivity |].
    unfold owned_positions in Hx.
    apply list_elem_of_lookup_2, list_elem_of_filter in Hx.
    destruct Hx as [_ Hx]. apply elem_of_seq in Hx.
    split; [lia |].
    destruct (total_take_mono (Queue dj) x x Hpos) as [Hm Hle]; [lia |].
    unfold wait_before. apply wrap64_id. unfold GoInt.inInt64. lia. }
  split.
  - intros p a Hp. destruct (Hat p a Hp) as (x & _ & Hx & ->).
    destruct (total_take_mono (Queue dj) x x Hpos) as [Hm Hle]; lia.
  - intros p q a b Hpq Hp Hq.
    destruct (Hat p a Hp) as (x & Hxp & Hx & ->).
    destruct (Hat q b Hq) as (y & Hyq & Hy & ->).
    assert (Hxy : (x <= y)%nat).
    { destruct (decide (p = q)) as [-> | Hne]; [| ].
      - rewrite Hxp in Hyq. inversion Hyq. lia.
      - unfold owned_positions in Hxp, Hyq.
        pose proof (filter_seq_ascending _ _ _ _ _ _ _ Hxp Hyq
                      ltac:(lia)). lia. }
    destruct (total_take_mono (Queue dj) x y Hpos) as [Hm Hle]; lia.
Qed.

Lemma DurationUntilUser_ascending_witness :
  2 <= 17 <= 2 + total (Queue Sample.djWait).
Proof.
  refine (proj1 (DurationUntilUser_ascending Sample.djWait 100 Sample.X _ _)
            1%nat 17 eq_refl).
  - repeat constructor; discriminate.
  - vm_compute. split; discriminate.
Defined.

(** X14.  For the owner of the entry at the head of the queue the first
    waiting time [DurationUntilUser] returns is the duration of the current
    entry less the progress [CurrentlyPlaying] reports at the same
    instant. *)
Theorem head_waits_for_current (dj : Dj) (now : time.Time)
  (e : QueueEntry) (rest : list QueueEntry) :
  Queue dj = e :: rest ->
  DurationUntilUser dj now (Owner e) !! 0%nat =
  Some (GoInt.sub64 (Duration (EntryMedia (currentEntry dj)))
                    (snd (fst (CurrentlyPlaying dj now)))).
Proof.
  intros Hq. unfold DurationUntilUser, CurrentlyPlaying. cbn [fst snd].
  unfold Queue in Hq. rewrite Hq. cbn [DurationUntilUser_loop].
  rewrite decide_True by reflexivity.
  rewrite (DurationUntilUser_loop_inv (Owner e)
             (GoInt.sub64 (Duration (EntryMedia (currentEntry dj)))
                          (time.Since now (songStarted dj)))
             rest [e]).
  - reflexivity.
  - unfold GoInt.add64, GoInt.sub64. rewrite !wrap64_add_l.
    f_equal. unfold total. simpl. lia.
Qed.

Lemma head_waits_for_current_witness :
  DurationUntilUser Sample.djWait 103 Sample.X !! 0%nat = Some (-1).
Proof.
  exact (head_waits_for_current Sample.djWait 103 Sample.A
           [Sample.B; Sample.C] eq_refl).
Defined.

(** * Further properties of a session *)

Lemma producer_loop_hs (w : World) (fuel : nat) :
  forall (n : nat) (dj dj' : Dj) (c : Z) tr err,
    producer_loop w fuel n dj c = (tr, Some (dj', err)) -> hs dj' = hs dj.
Proof.
  induction fuel as [| fuel IH]; intros n dj dj' c tr err Hrun;
    [discriminate |].
  cbn [producer_loop] in Hrun.
  pose proof (producer_iter_hs w n dj c) as Hhs.
  destruct (producer_iter w n dj c) as [evs [d c' | d | d e]];
    cbn [snd] in Hhs.
  - destruct (producer_loop w fuel (S n) d c') as [tr' res'] eqn:Hrest.
    inversion Hrun; subst. rewrite <- Hhs. exact (IH _ _ _ _ _ _ Hrest).
  - inversion Hrun; subst. exact Hhs.
  - inversion Hrun; subst. exact Hhs.
Qed.

Lemma silences_app (t1 t2 : list (nat * event)) :
  silences (t1 ++ t2) = (silences t1 + silences t2)%nat.
Proof. unfold silences. rewrite filter_app, length_app. reflexivity. Qed.

Lemma silences_none (tr : list (nat * event)) :
  Forall (fun x => snd x <> EvFfmpeg (fifoArgs silenceArgs) None) tr ->
  silences tr = 0%nat.
Proof.
  unfold silences. induction 1 as [| x tr Hx _ IH]; [reflexivity |].
  rewrite filter_cons, decide_False by exact Hx. exact IH.
Qed.

(** An iteration that pops an entry writes no silence. *)
Lemma entry_iteration_no_silence (w : World) (n : nat) (dj : Dj) (c : Z)
  (e : QueueEntry) (rest : list QueueEntry) :
  Queue (run_ops dj (others w n)) = e :: rest ->
  silences ((fun ev => (n, ev)) <$> fst (producer_iter w n dj c)) = 0%nat.
Proof.
  intros Hq. rewrite (producer_iter_entry w n dj c e rest Hq). cbv zeta.
  apply silences_none.
  destruct (snd (yt_dlp w n (ytArgs e))), (newSongHandler (hs dj)),
    (endOfSongHandler (hs dj)); try destruct (ffmpeg w n _);
    cbn; repeat constructor; cbn; intros H; inversion H.
Qed.

(** The counter bounds the silence still to come, and a return without
    error means the bound was reached on an empty queue. *)
Lemma producer_loop_silences (w : World) (fuel : nat) :
  forall (n : nat) (dj : Dj) (c : Z) tr res,
    0 <= c <= 4 ->
    producer_loop w fuel n dj c = (tr, res) ->
    (Z.of_nat (silences tr) <= 4 - c) /\
    (forall dj', res = Some (dj', None) ->
       Z.of_nat (silences tr) = 4 - c /\
       Queue dj' = [] /\ currentEntry dj' = QueueEntry_zero).
Proof.
  induction fuel as [| fuel IH]; intros n dj c tr res Hc Hrun.
  - inversion Hrun; subst. split; [unfold silences; simpl; lia | discriminate].
  - cbn [producer_loop] in Hrun.
    destruct (Queue (run_ops dj (others w n))) as [| e rest] eqn:Hq.
    + rewrite (producer_iter_empty w n dj c Hq) in Hrun. cbv zeta in Hrun.
      destruct (Z.geb_spec c 4) as [Hge | Hlt].
      * inversion Hrun; subst. split; [unfold silences; simpl; lia |].
        intros dj' Hd. inversion Hd; subst.
        split; [unfold silences; simpl; lia |]. split; [exact Hq | reflexivity].
      * destruct (ffmpeg w n (fifoArgs silenceArgs)) as [err |].
        -- inversion Hrun; subst. split; [| discriminate].
           rewrite silences_none; [unfold silences; simpl; lia |].
           repeat constructor. simpl. discriminate.
        -- destruct (producer_loop w fuel (S n) _ (c + 1))
             as [tr' res'] eqn:Hrest.
           injection Hrun as <- <-.
           assert (Hc' : 0 <= c + 1 <= 4) by lia.
           destruct (IH _ _ _ _ _ Hc' Hrest) as [Hle Hend].
           change ((n, EvFfmpeg (fifoArgs silenceArgs) None) :: tr')
             with ([(n, EvFfmpeg (fifoArgs silenceArgs) None)] ++ tr').
           rewrite silences_app.
           change (silences [(n, EvFfmpeg (fifoArgs silenceArgs) None)])
             with 1%nat.
           split; [lia |]. intros dj' Hd.
           destruct (Hend dj' Hd) as (Heq & Hq' & Hcur).
           split; [lia |]. split; assumption.
    + pose proof (entry_iteration_no_silence w n dj c e rest Hq) as Hno.
      destruct (producer_iter w n dj c) as [evs r] eqn:Hit.
      cbn [fst] in Hno.
      assert (Hr : match r with
                   | Continue _ c' => c' = c
                   | Break _ => False
                   | Return _ _ => True
                   end).
      { rewrite (producer_iter_entry w n dj c e rest Hq) in Hit.
        cbv zeta in Hit.
        destruct (snd (yt_dlp w n (ytArgs e)));
          [inversion Hit; exact I |].
        destruct (ffmpeg w n _); inversion Hit; [exact I | reflexivity]. }
      destruct r as [d c' | d | d err].
      * subst c'.
        destruct (producer_loop w fuel (S n) d c) as [tr' res'] eqn:Hrest.
        injection Hrun as <- <-.
        destruct (IH _ _ _ _ _ Hc Hrest) as [Hle Hend].
        rewrite silences_app, Hno. split; [lia |].
        intros dj' Hd. destruct (Hend dj' Hd) as (Heq & Hq' & Hcur).
        split; [lia |]. split; assumption.
      * destruct Hr.
      * inversion Hrun; subst. rewrite Hno.
        split; [unfold silences; simpl; lia | discriminate].
Qed.

(** X15.  A session writes at most four silence segments in all, whatever
    the other goroutines and the external commands do and however long it
    runs. *)
Theorem Play_silence_bound (w : World) (fuel : nat) (dj : Dj)
  (tr : list (nat * event)) (res : play_end) :
  Play w fuel dj = (tr, res) -> (silences tr <= 4)%nat.
Proof.
  intros HPlay.
  destruct (Play_trace _ _ _ _ _ HPlay) as [-> | [r Hrun]];
    [unfold silences; simpl; lia |].
  destruct (producer_loop_silences w fuel 0 dj 0 tr r ltac:(lia) Hrun)
    as [Hle _].
  lia.
Qed.

Lemma Play_silence_bound_witness :
  (silences (fst (Play Sample.refill 9 (Sample.withHandlers []))) <= 4)%nat.
Proof.
  exact (Play_silence_bound Sample.refill 9 (Sample.withHandlers [])
           _ _ eq_refl).
Defined.

(** X16.  [Play] returns without a session error only when the relay has
    not failed and the loop has written four silence segments before it
    broke: no entry is current then, [CurrentlyPlaying] reports that
    nothing is playing, and the error handler has not been called. *)
Theorem Play_quiet_end (w : World) (fuel : nat) (dj dj' : Dj)
  (tr : list (nat * event)) (handled : list event) (now : time.Time) :
  Play w fuel dj = (tr, Done dj' None handled) ->
  handled = [] /\ relay w = None /\ silences tr = 4%nat /\
  currentEntry dj' = QueueEntry_zero /\
  snd (CurrentlyPlaying dj' now) = Some errNoSong.
Proof.
  unfold Play, producer. intros H.
  destruct (mkfifo w); [discriminate |].
  assert (Hwait : forall perr, eg_Wait w perr (consumer w) = None ->
                               perr = None /\ relay w = None).
  { intros perr. unfold eg_Wait, consumer.
    destruct (relay w), (relayFirst w), perr; intros Hw;
      try discriminate; auto. }
  destruct (openFile w) as [oerr |].
  - destruct (eg_Wait w (Some oerr) (consumer w)) eqn:Hw;
      [discriminate |].
    destruct (Hwait _ Hw) as [Hp _]. discriminate.
  - destruct (producer_loop w fuel 0 dj 0) as [tr' [[d perr] |]] eqn:Hrun;
      [| discriminate].
    destruct (eg_Wait w perr (consumer w)) eqn:Hw; [discriminate |].
    inversion H; subst. destruct (Hwait _ Hw) as [-> Hrelay].
    destruct (producer_loop_silences w fuel 0 dj 0 tr _ ltac:(lia) Hrun)
      as [_ Hend].
    destruct (Hend dj' eq_refl) as (Hs & _ & Hcur).
    split; [reflexivity |]. split; [exact Hrelay |].
    split; [lia |]. split; [exact Hcur |].
    unfold CurrentlyPlaying. rewrite Hcur. reflexivity.
Qed.

Lemma Play_quiet_end_witness :
  silences (fst (Play Sample.refill 6 (Sample.withHandlers []))) = 4%nat.
Proof.
  pose proof (Play_quiet_end Sample.refill 6 (Sample.withHandlers [])
                _ _ _ 0 eq_refl) as H.
  exact (proj1 (proj2 (proj2 H))).
Defined.

Lemma popped_app (t1 t2 : list (nat * event)) :
  popped (t1 ++ t2) = popped t1 ++ popped t2.
Proof. unfold popped. apply omap_app. Qed.

(** What an iteration pops: nothing from an empty queue, the head
    otherwise; and the queue it leaves. *)
Lemma producer_iter_popped (w : World) (n : nat) (dj : Dj) (c : Z) :
  let q := Queue (run_ops dj (others w n)) in
  popped ((fun ev => (n, ev)) <$> fst (producer_iter w n dj c)) = take 1 q /\
  match snd (producer_iter w n dj c) with
  | Continue dj' _ | Break dj' | Return dj' _ => Queue dj' = drop 1 q
  end.
Proof.
  intros q. subst q.
  destruct (Queue (run_ops dj (others w n))) as [| e rest] eqn:Hq.
  - rewrite (producer_iter_empty w n dj c Hq). cbv zeta.
    destruct (c >=? 4); [split; [reflexivity | exact Hq] |].
    destruct (ffmpeg w n _); split; first [reflexivity | exact Hq].
  - rewrite (producer_iter_entry w n dj c e rest Hq). cbv zeta.
    destruct (snd (yt_dlp w n (ytArgs e))), (newSongHandler (hs dj)),
      (endOfSongHandler (hs dj)); try destruct (ffmpeg w n _);
      split; reflexivity.
Qed.

Lemma producer_loop_popped (w : World) (fuel : nat) :
  undisturbed w ->
  forall (n : nat) (dj : Dj) (c : Z) tr res,
    producer_loop w fuel n dj c = (tr, res) ->
    (exists rest, popped tr ++ rest = Queue dj) /\
    (forall dj' err, res = Some (dj', err) ->
                     popped tr ++ Queue dj' = Queue dj).
Proof.
  intros Hw. induction fuel as [| fuel IH]; intros n dj c tr res Hrun.
  - inversion Hrun; subst. split; [exists (Queue dj); reflexivity |].
    discriminate.
  - cbn [producer_loop] in Hrun.
    pose proof (producer_iter_popped w n dj c) as Hpop. cbv zeta in Hpop.
    rewrite (Hw n) in Hpop. change (run_ops dj []) with dj in Hpop.
    destruct (producer_iter w n dj c) as [evs r]. cbn [fst snd] in Hpop.
    destruct Hpop as [Hp Hq].
    destruct r as [d c' | d | d e].
    + destruct (producer_loop w fuel (S n) d c') as [tr' res'] eqn:Hrest.
      injection Hrun as <- <-.
      destruct (IH _ _ _ _ _ Hrest) as [[rest Hrest'] Hend].
      rewrite popped_app, Hp. split.
      * exists rest. rewrite <- app_assoc, Hrest', Hq. apply take_drop.
      * intros dj' err Hd. rewrite <- app_assoc, (Hend dj' err Hd), Hq.
        apply take_drop.
    + injection Hrun as <- <-. rewrite Hp. split.
      * exists (drop 1 (Queue dj)). apply take_drop.
      * intros dj' err Hd. inversion Hd; subst. rewrite Hq.
        apply take_drop.
    + injection Hrun as <- <-. rewrite Hp. split.
      * exists (drop 1 (Queue dj)). apply take_drop.
      * intros dj' err Hd. inversion Hd; subst. rewrite Hq.
        apply take_drop.
Qed.

(** X17.  When no other goroutine touches the queue during a session, the
    entries are popped in queue order and none is lost or repeated: at any
    moment the entries popped so far are a prefix of the queue [Play] was
    started with, and when [Play] has returned they are followed exactly
    by the queue that is left, also when the session ended in an error. *)
Theorem Play_pops_in_order (w : World) (fuel : nat) (dj : Dj)
  (tr : list (nat * event)) (res : play_end) :
  undisturbed w ->
  Play w fuel dj = (tr, res) ->
  (exists rest, popped tr ++ rest = Queue dj) /\
  (forall dj' err handled,
     res = Done dj' err handled -> popped tr ++ Queue dj' = Queue dj).
Proof.
  intros Hw. unfold Play, producer. intros H.
  destruct (mkfifo w); [inversion H; subst; split;
                        [exists (Queue dj); reflexivity | discriminate] |].
  destruct (openFile w) as [oerr |].
  - destruct (eg_Wait w (Some oerr) (consumer w));
      inversion H; subst;
      (split; [exists (Queue dj); reflexivity |]);
      intros dj' err handled Hd; inversion Hd; subst; reflexivity.
  - destruct (producer_loop w fuel 0 dj 0) as [tr' [[d perr] |]] eqn:Hrun.
    + destruct (producer_loop_popped w fuel Hw _ _ _ _ _ Hrun)
        as [Hpre Hend].
      destruct (eg_Wait w perr (consumer w));
        inversion H; subst; (split; [exact Hpre |]);
        intros dj' err handled Hd; inversion Hd; subst;
        exact (Hend _ _ eq_refl).
    + destruct (producer_loop_popped w fuel Hw _ _ _ _ _ Hrun)
        as [Hpre _].
      inversion H; subst. split; [exact Hpre | discriminate].
Qed.

Lemma undisturbed_fine : undisturbed Sample.fine.
Proof. intros n. reflexivity. Qed.

Lemma undisturbed_resolveFails : undisturbed Demo.resolveFails.
Proof. intros n. reflexivity. Qed.

Lemma Play_pops_in_order_witness :
  exists dj' err handled,
    Play Demo.resolveFails 7 Demo.dj4 =
    (fst (Play Demo.resolveFails 7 Demo.dj4), Done dj' err handled) /\
    popped (fst (Play Demo.resolveFails 7 Demo.dj4)) ++ Queue dj' =
    [Sample.A; Sample.B; Sample.C; Demo.D].
Proof.
  eexists _, _, _. split; [vm_compute; reflexivity |].
  refine (proj2 (Play_pops_in_order Demo.resolveFails 7 Demo.dj4 _ _
                   undisturbed_resolveFails eq_refl) _ _ _ _).
  vm_compute. reflexivity.
Defined.

(** The loop never calls the error handler. *)
Lemma producer_loop_no_EvError (w : World) (fuel : nat) :
  forall (n : nat) (dj : Dj) (c : Z) tr res,
    producer_loop w fuel n dj c = (tr, res) ->
    forall k f e, (k, EvError f e) ∉ tr.
Proof.
  induction fuel as [| fuel IH]; intros n dj c tr res Hrun k f e Hev.
  - inversion Hrun; subst. inversion Hev.
  - cbn [producer_loop] in Hrun.
    assert (Hit : EvError f e ∉ fst (producer_iter w n dj c)).
    { intros Hin.
      assert (Hst : forall ev, ev ∈ fst (producer_iter w n dj c) ->
                               (stage ev < 5)%nat).
      { destruct (Queue (run_ops dj (others w n))) as [| x rest] eqn:Hq.
        - rewrite (producer_iter_empty w n dj c Hq). cbv zeta.
          destruct (c >=? 4); [intros ev H; inversion H |].
          destruct (ffmpeg w n _); intros ev H;
            apply list_elem_of_singleton in H; subst; simpl; lia.
        - rewrite (producer_iter_entry w n dj c x rest Hq). cbv zeta.
          destruct (snd (yt_dlp w n (ytArgs x))), (newSongHandler (hs dj)),
            (endOfSongHandler (hs dj)); try destruct (ffmpeg w n _);
            intros ev H; cbn in H;
            repeat (apply elem_of_cons in H; destruct H as [-> | H];
                    [simpl; lia |]);
            inversion H. }
      specialize (Hst _ Hin). simpl in Hst. lia. }
    destruct (producer_iter w n dj c) as [evs r]. cbn [fst] in Hit.
    assert (Hhere : (k, EvError f e) ∉ ((fun ev => (n, ev)) <$> evs)).
    { intros Hz. apply list_elem_of_fmap in Hz.
      destruct Hz as (ev' & Heq & Hin). inversion Heq; subst.
      exact (Hit Hin). }
    destruct r as [dj' c' | dj' | dj' err].
    + destruct (producer_loop w fuel (S n) dj' c') as [tr' res'] eqn:Hrest.
      injection Hrun as <- <-. apply elem_of_app in Hev.
      destruct Hev as [Hev | Hev]; [exact (Hhere Hev) |].
      exact (IH _ _ _ _ _ Hrest k f e Hev).
    + injection Hrun as <- <-. exact (Hhere Hev).
    + injection Hrun as <- <-. exact (Hhere Hev).
Qed.

(** X18.  The error handler is never called while the loop runs.  When
    [Play] returns, the handler found in the Dj at that moment is called
    once if there is a session error, with that error, and not at all
    otherwise or when that slot is nil.  The session error is nil exactly
    when the fifo was opened, the loop returned nil and the relay did not
    fail; otherwise it is the error of opening the fifo or the error the
    loop returned, as they are, or the error of the relay wrapped as a
    failure to stream from the fifo. *)
Theorem Play_reports_error_once (w : World) (fuel : nat) (dj dj' : Dj)
  (tr : list (nat * event)) (err : option error) (handled : list event) :
  Play w fuel dj = (tr, Done dj' err handled) ->
  (forall k f e, (k, EvError f e) ∉ tr) /\
  handled = match err, errorHander (hs dj') with
            | Some e, Some f => [EvError f e]
            | _, _ => []
            end /\
  match err with
  | None =>
    relay w = None /\ openFile w = None /\
    producer_loop w fuel 0 dj 0 = (tr, Some (dj', None))
  | Some e =>
    (exists r, relay w = Some r /\
               e = fmt_Errorf_w "failed to stream from fifo" r) \/
    (openFile w = Some e /\ tr = [] /\ dj' = dj) \/
    (openFile w = None /\
     producer_loop w fuel 0 dj 0 = (tr, Some (dj', Some e)))
  end.
Proof.
  intros HPlay.
  split.
  { intros k f e Hev.
    destruct (Play_trace _ _ _ _ _ HPlay) as [-> | [r Hrun]];
      [inversion Hev |].
    exact (producer_loop_no_EvError _ _ _ _ _ _ _ Hrun k f e Hev). }
  revert HPlay. unfold Play, producer. intros H.
  destruct (mkfifo w); [discriminate |].
  assert (Hwait : forall perr,
            match eg_Wait w perr (consumer w) with
            | None => perr = None /\ relay w = None
            | Some e =>
              perr = Some e \/
              exists r, relay w = Some r /\
                        e = fmt_Errorf_w "failed to stream from fifo" r
            end).
  { intros perr. unfold eg_Wait, consumer.
    destruct (relay w) as [r |], (relayFirst w), perr; eauto. }
  destruct (openFile w) as [oerr |].
  - specialize (Hwait (Some oerr)).
    destruct (eg_Wait w (Some oerr) (consumer w)) as [e |];
      inversion H; subst.
    + split; [destruct (errorHander (hs dj')); reflexivity |].
      destruct Hwait as [Hp | Hr]; [inversion Hp; auto | auto].
    + destruct Hwait as [Hp _]. discriminate.
  - destruct (producer_loop w fuel 0 dj 0) as [tr' [[d perr] |]] eqn:Hrun;
      [| discriminate].
    specialize (Hwait perr).
    destruct (eg_Wait w perr (consumer w)) as [e |]; inversion H; subst.
    + split; [destruct (errorHander (hs dj')); reflexivity |].
      destruct Hwait as [-> | Hr]; auto.
    + destruct Hwait as [-> Hrelay]. auto.
Qed.

Lemma Play_reports_error_once_witness :
  let e := fmt_Errorf_w "failed to write to pipe" Sample.exit1 in
  [EvError 3%nat e] =
  match Some e, errorHander (hs (mkDj [] Sample.A
            (hs (Sample.withHandlers [Sample.A])) 0)) with
  | Some e, Some f => [EvError f e]
  | _, _ => []
  end.
Proof.
  intros e.
  exact (proj1 (proj2
    (Play_reports_error_once Sample.encodeFails 3
       (Sample.withHandlers [Sample.A])
       (mkDj [] Sample.A (hs (Sample.withHandlers [Sample.A])) 0)
       (fst (Play Sample.encodeFails 3 (Sample.withHandlers [Sample.A])))
       (Some e) [EvError 3%nat e] eq_refl))).
Defined.

Lemma stage_sorted_lookup (evs : list event) :
  StronglySorted (fun a b => (stage a < stage b)%nat) evs ->
  forall p q x y, evs !! p = Some x -> evs !! q = Some y ->
                  (stage x < stage y)%nat -> (p < q)%nat.
Proof.
  induction 1 as [| a l Hl IH Ha]; intros p q x y Hp Hq Hxy.
  - rewrite lookup_nil in Hp. discriminate.
  - rewrite Forall_forall in Ha.
    destruct p as [| p], q as [| q]; simpl in Hp, Hq.
    + inversion Hp; inversion Hq; subst. lia.
    + lia.
    + inversion Hq; subst. apply list_elem_of_lookup_2 in Hp.
      apply Ha in Hp. lia.
    + specialize (IH p q x y Hp Hq Hxy). lia.
Qed.

(** The events of one iteration follow the order of the body of the
    loop. *)
Lemma producer_iter_stages (w : World) (n : nat) (dj : Dj) (c : Z) :
  StronglySorted (fun a b => (stage a < stage b)%nat)
                 (fst (producer_iter w n dj c)).
Proof.
  destruct (Queue (run_ops dj (others w n))) as [| e rest] eqn:Hq.
  - rewrite (producer_iter_empty w n dj c Hq). cbv zeta.
    destruct (c >=? 4); [constructor |].
    destruct (ffmpeg w n _); repeat constructor.
  - rewrite (producer_iter_entry w n dj c e rest Hq). cbv zeta.
    destruct (snd (yt_dlp w n (ytArgs e))), (newSongHandler (hs dj)),
      (endOfSongHandler (hs dj)); try destruct (ffmpeg w n _);
      cbn; repeat constructor; simpl; lia.
Qed.

Lemma producer_loop_stages (w : World) (fuel : nat) :
  forall (n : nat) (dj : Dj) (c : Z) tr res,
    producer_loop w fuel n dj c = (tr, res) ->
    forall k p q x y, tr !! p = Some (k, x) -> tr !! q = Some (k, y) ->
                      (stage x < stage y)%nat -> (p < q)%nat.
Proof.
  induction fuel as [| fuel IH];
    intros n dj c tr res Hrun k p q x y Hp Hq Hxy.
  - inversion Hrun; subst. rewrite lookup_nil in Hp. discriminate.
  - cbn [producer_loop] in Hrun.
    pose proof (producer_iter_stages w n dj c) as Hst.
    destruct (producer_iter w n dj c) as [evs r]. cbn [fst] in Hst.
    set (T := (fun ev => (n, ev)) <$> evs) in *.
    assert (Hin : forall i z, T !! i = Some z ->
                              fst z = n /\ evs !! i = Some (snd z)).
    { intros i z Hz. unfold T in Hz. rewrite list_lookup_fmap in Hz.
      destruct (evs !! i); inversion Hz; subst. auto. }
    assert (Hone : forall tr', tr = T ++ tr' ->
              (forall z, z ∈ tr' -> (S n <= fst z)%nat) ->
              (forall p' q', tr' !! p' = Some (k, x) ->
                             tr' !! q' = Some (k, y) -> (p' < q')%nat) ->
              (p < q)%nat).
    { intros tr' -> Htags Hrec.
      destruct (decide (p < length T)%nat) as [Hpl | Hpl],
               (decide (q < length T)%nat) as [Hql | Hql].
      - rewrite lookup_app_l in Hp, Hq by assumption.
        destruct (Hin _ _ Hp) as [_ Hp'], (Hin _ _ Hq) as [_ Hq'].
        exact (stage_sorted_lookup evs Hst _ _ _ _ Hp' Hq' Hxy).
      - lia.
      - rewrite lookup_app_l in Hq by assumption.
        rewrite lookup_app_r in Hp by lia.
        apply list_elem_of_lookup_2, Htags in Hp.
        destruct (Hin _ _ Hq) as [Hk _]. simpl in Hp, Hk. lia.
      - rewrite lookup_app_r in Hp, Hq by lia.
        specialize (Hrec _ _ Hp Hq). lia. }
    destruct r as [dj' c' | dj' | dj' err].
    + destruct (producer_loop w fuel (S n) dj' c') as [tr' res'] eqn:Hrest.
      injection Hrun as <- <-. apply (Hone tr' eq_refl).
      * intros z Hz. exact (producer_loop_tags _ _ _ _ _ _ _ Hrest z Hz).
      * intros p' q' Hp' Hq'.
        exact (IH _ _ _ _ _ Hrest _ _ _ _ _ Hp' Hq' Hxy).
    + injection Hrun as <- <-. apply (Hone []).
      * rewrite app_nil_r. reflexivity.
      * intros z Hz. inversion Hz.
      * intros p' q' Hp'. rewrite lookup_nil in Hp'. discriminate.
    + injection Hrun as <- <-. apply (Hone []).
      * rewrite app_nil_r. reflexivity.
      * intros z Hz. inversion Hz.
      * intros p' q' Hp'. rewrite lookup_nil in Hp'. discriminate.
Qed.

(** X19.  Within one iteration of a session the pop comes first, then the
    run of yt-dlp, then the new-song callback, then the run of ffmpeg, then
    the end-of-song callback: the new-song callback of an entry is made
    before its stream starts and its end-of-song callback after the stream
    has ended. *)
Theorem Play_callbacks_around_stream (w : World) (fuel : nat) (dj : Dj)
  (tr : list (nat * event)) (res : play_end) (k : nat) :
  Play w fuel dj = (tr, res) ->
  (forall x y, (stage x < stage y)%nat -> precedes tr (k, x) (k, y)) /\
  (forall f e a r, precedes tr (k, EvNewSong f e) (k, EvFfmpeg a r)) /\
  (forall a r g e err,
     precedes tr (k, EvFfmpeg a r) (k, EvEndOfSong g e err)).
Proof.
  intros HPlay.
  assert (H : forall x y, (stage x < stage y)%nat ->
                          precedes tr (k, x) (k, y)).
  { intros x y Hxy p q Hp Hq.
    destruct (Play_trace _ _ _ _ _ HPlay) as [-> | [r Hrun]].
    - rewrite lookup_nil in Hp. discriminate.
    - exact (producer_loop_stages _ _ _ _ _ _ _ Hrun _ _ _ _ _ Hp Hq Hxy). }
  split; [exact H |]. split; intros; apply H; simpl; lia.
Qed.

Lemma Play_callbacks_around_stream_witness :
  precedes (fst (Play Sample.fine 2 (Sample.withHandlers [Sample.A])))
           (0%nat, EvNewSong 1%nat Sample.A)
           (0%nat, EvFfmpeg (audioArgs Sample.fine 0 Sample.A) None).
Proof.
  exact (proj1 (proj2
    (Play_callbacks_around_stream Sample.fine 2
       (Sample.withHandlers [Sample.A]) _ _ 0%nat eq_refl)) _ _ _ _).
Defined.

Lemma undisturbed_stays_empty (w : World) : undisturbed w -> stays_empty w.
Proof. intros Hw n dj Hq. rewrite (Hw n). exact Hq. Qed.

(** With nothing failing and nobody else at the queue, the loop plays the
    queue from its head to its end and then writes the four segments of
    silence. *)
Lemma producer_loop_whole_queue (w : World) :
  undisturbed w -> resolves w -> streams w ->
  forall (q : list QueueEntry) (m n : nat) (dj : Dj),
    Queue dj = q ->
    exists dj',
      producer_loop w (length q + 5 + m) n dj 0 =
      (song_trace w (hs dj) n q ++
       (silence_at None <$> seq (n + length q) 4),
       Some (dj', None)) /\
      Queue dj' = [] /\ currentEntry dj' = QueueEntry_zero.
Proof.
  intros Hw Hyt Hff. induction q as [| e rest IH]; intros m n dj Hq.
  - destruct (empty_streak_run w (undisturbed_stays_empty w Hw)
                (fun k => Hff k _) 4 m n dj 0 Hq eq_refl)
      as (dj' & Hrun & Hq' & Hcur).
    exists dj'. cbn [length song_trace app Nat.add].
    rewrite Nat.add_0_r. split; [exact Hrun |]. split; assumption.
  - cbn [length Nat.add producer_loop].
    assert (Hq0 : Queue (run_ops dj (others w n)) = e :: rest)
      by (rewrite (Hw n); exact Hq).
    rewrite (producer_iter_entry w n dj 0 e rest Hq0). cbv zeta.
    rewrite (Hyt n (ytArgs e)), (Hff n (audioArgs w n e)).
    rewrite (Hw n). change (run_ops dj []) with dj.
    destruct (IH m (S n)
                (set_songStarted (set_currentEntry (set_Items dj rest) e)
                                 (clock w n)) eq_refl)
      as (dj' & Hrun & Hq' & Hcur).
    rewrite Hrun. exists dj'. split; [| split; assumption].
    cbn [song_trace hs set_songStarted set_currentEntry set_Items].
    rewrite <- app_assoc.
    replace (n + S (length rest))%nat with (S n + length rest)%nat by lia.
    reflexivity.
Qed.

(** X21.  When nobody else touches the queue and every run of yt-dlp and
    ffmpeg succeeds, a session plays the whole queue in order, for each
    entry the pop, the resolution, the new-song callback, the stream and
    the end-of-song callback, then writes four silence segments and
    returns: no session error, no call of the error handler, the queue
    empty and no entry current. *)
Theorem Play_whole_queue (w : World) (m : nat) (dj : Dj) :
  undisturbed w -> resolves w -> streams w ->
  mkfifo w = None -> openFile w = None -> relay w = None ->
  exists dj',
    Play w (length (Queue dj) + 5 + m) dj =
    (song_trace w (hs dj) 0 (Queue dj) ++
     (silence_at None <$> seq (length (Queue dj)) 4),
     Done dj' None []) /\
    Queue dj' = [] /\ currentEntry dj' = QueueEntry_zero.
Proof.
  intros Hw Hyt Hff Hmk Hopen Hrelay.
  destruct (producer_loop_whole_queue w Hw Hyt Hff (Queue dj) m 0 dj eq_refl)
    as (dj' & Hrun & Hq & Hcur).
  exists dj'. split; [| split; assumption].
  unfold Play, producer. rewrite Hmk, Hopen, Hrun.
  unfold eg_Wait, consumer. rewrite Hrelay.
  destruct (relayFirst w); reflexivity.
Qed.

Lemma Play_whole_queue_witness :
  exists dj',
    Play Sample.fine 9 Demo.dj4 =
    (song_trace Sample.fine (hs Demo.dj4) 0 (Queue Demo.dj4) ++
     (silence_at None <$> seq 4 4),
     Done dj' None []) /\
    Queue dj' = [] /\ currentEntry dj' = QueueEntry_zero.
Proof.
  exact (Play_whole_queue Sample.fine 0 Demo.dj4 undisturbed_fine
           (fun _ _ => eq_refl) (fun _ _ => eq_refl)
           eq_refl eq_refl eq_refl).
Defined.

(** X22.  After an iteration that has streamed an entry whose [Media] is
    not the zero value, and whatever the other callers then do to the
    queue, [CurrentlyPlaying] returns that entry without error, with the
    time since the clock reading of that iteration, until the next pop. *)
Theorem CurrentlyPlaying_after_stream (w : World) (n : nat) (dj dj' : Dj)
  (c c' : Z) (e : QueueEntry) (rest : list QueueEntry)
  (evs : list event) (ops : list QueueOp) (now : time.Time) :
  Queue (run_ops dj (others w n)) = e :: rest ->
  EntryMedia e <> Media_zero ->
  producer_iter w n dj c = (evs, Continue dj' c') ->
  CurrentlyPlaying (run_ops dj' ops) now =
  (e, time.Since now (clock w n), None) /\
  Queue dj' = rest.
Proof.
  intros Hq Hm Hit.
  rewrite (producer_iter_entry w n dj c e rest Hq) in Hit. cbv zeta in Hit.
  destruct (snd (yt_dlp w n (ytArgs e))); [discriminate |].
  destruct (ffmpeg w n _); [discriminate |].
  inversion Hit; subst. split; [| reflexivity].
  rewrite (run_ops_frame ops). unfold CurrentlyPlaying. cbn.
  rewrite decide_False by exact Hm. reflexivity.
Qed.

Lemma CurrentlyPlaying_after_stream_witness :
  CurrentlyPlaying
    (run_ops (mkDj [Sample.B] Sample.A (mkHandlers None None None) 0)
             [OpRemoveAt 0]) 250 =
  (Sample.A, 250, None).
Proof.
  refine (proj1 (CurrentlyPlaying_after_stream Sample.fine 0
            (NewDj [Sample.A; Sample.B]) _ 0 0 Sample.A [Sample.B] _
            [OpRemoveAt 0] 250 eq_refl _ eq_refl)).
  discriminate.
Defined.
